(** * pokedexcli: the timed cache and its callers

    A shallow embedding of [internal/pokecache/pokecache.go] and of the
    command-line layer that drives it: [fetchData] and [catchPokemon], the
    command callbacks, [cleanInput] and the body of the loop in [main].

    Conventions.
    - A [time.Time] obtained from [time.Now()] is represented by its
      monotonic clock reading, a signed 64-bit count of nanoseconds;
      [time.Duration] is a signed 64-bit count of nanoseconds.  Both are
      values of [Z]; the wrap-around of the one subtraction the code performs
      (inside [time.Since]) is written out.
    - A [[]byte] is either the nil slice or a slice with contents.
    - [map[string]cacheEntry] is a [gmap string cacheEntry].
    - The mutex field [mu] is not represented: each method body is one
      critical section and is modelled as one atomic state transformer. *)

From Stdlib Require Import ZArith Lia.
From stdpp Require Import gmap strings pretty list fin_maps.

#[local] Open Scope Z_scope.

(** ** Library fragments the code relies on *)

Module GoTime.

Definition minDuration : Z := - 2 ^ 63.
Definition maxDuration : Z := 2 ^ 63 - 1.

(** Conversion of a mathematical integer to [int64]. *)
Definition wrap64 (z : Z) : Z := (z + 2 ^ 63) mod 2 ^ 64 - 2 ^ 63.

(** [time.subMono]: subtraction of two monotonic readings, saturating. *)
Definition subMono (t u : Z) : Z :=
  let d := wrap64 (t - u) in
  if (d <? 0) && (u <? t) then maxDuration
  else if (0 <? d) && (t <? u) then minDuration
  else d.

(** [time.Since(t)] evaluated while the clock reads [now]. *)
Definition Since (now t : Z) : Z := subMono now t.

(** The readings [time.Now()] can produce: non-negative [int64]. *)
Definition monoReading (t : Z) : Prop := 0 <= t < 2 ^ 63.

Lemma wrap64_small z : - 2 ^ 63 <= z < 2 ^ 63 -> wrap64 z = z.
Proof.
  intros Hz. unfold wrap64.
  rewrite Z.mod_small; lia.
Qed.

Lemma Since_exact now t :
  monoReading now -> monoReading t -> Since now t = now - t.
Proof.
  unfold monoReading, Since, subMono. intros Hn Ht.
  rewrite wrap64_small by lia.
  destruct (Z.ltb_spec (now - t) 0), (Z.ltb_spec t now),
    (Z.ltb_spec 0 (now - t)), (Z.ltb_spec now t); simpl; lia.
Qed.

End GoTime.

(** ** internal/pokecache *)

Module Pokecache.
Import GoTime.

(** [[]byte] *)
Inductive Bytes : Type :=
| Nil
| Slice (bs : list Byte.byte).

Record cacheEntry : Type := mkEntry {
  createdAt : Z;
  val : Bytes;
}.

Record Cache : Type := mkCache {
  cache : gmap string cacheEntry;
}.

(** [func (p *Cache) Add(key string, value []byte)], with [now] the
    result of its call to [time.Now()]. *)
Definition Add (now : Z) (key : string) (value : Bytes) (p : Cache) : Cache :=
  {| cache := <[key := {| createdAt := now; val := value |}]> (cache p) |}.

(** [func (p *Cache) Get(key string) ([]byte, bool)]; the second component
    is the receiver as the call leaves it. *)
Definition Get (key : string) (p : Cache) : (Bytes * bool) * Cache :=
  match cache p !! key with
  | None => ((Nil, false), p)
  | Some e => ((val e, true), p)
  end.

(** The body of the inner [for key, entry := range p.cache] loop. *)
Definition reapEntry (interval now : Z) (m : gmap string cacheEntry)
    (ke : string * cacheEntry) : gmap string cacheEntry :=
  let '(key, entry) := ke in
  if Since now (createdAt entry) >? interval then delete key m else m.

(** The inner loop, visiting the entries in the order [order] (Go leaves the
    iteration order of a map unspecified). *)
Definition reapRange (interval now : Z) (order : list (string * cacheEntry))
    (m : gmap string cacheEntry) : gmap string cacheEntry :=
  foldl (reapEntry interval now) m order.

(** One iteration of [for range ticker.C] in [reapLoop]: the critical
    section, executed while the clock reads [now]. *)
Definition reapTick (interval now : Z) (p : Cache) : Cache :=
  {| cache := reapRange interval now (map_to_list (cache p)) (cache p) |}.

(** The map built by [NewCache]. *)
Definition NewCache : Cache := {| cache := ∅ |}.

(** The loop's test on one entry. *)
Definition expired (interval now : Z) (e : cacheEntry) : bool :=
  Since now (createdAt e) >? interval.

(** The age the specification speaks of. *)
Definition age (now : Z) (e : cacheEntry) : Z := now - createdAt e.

(** Entries as [time.Now()] can have stamped them. *)
Definition stamped (p : Cache) : Prop :=
  forall k e, cache p !! k = Some e -> monoReading (createdAt e).

(** *** The sweep, entry by entry *)

Lemma reapRange_notin interval now order m k :
  k ∉ order.*1 -> reapRange interval now order m !! k = m !! k.
Proof.
  unfold reapRange. revert m.
  induction order as [|[k0 e0] order IH]; intros m Hk; simpl; [reflexivity|].
  rewrite fmap_cons, not_elem_of_cons in Hk. simpl in Hk.
  destruct Hk as [Hne Hk].
  rewrite IH by assumption.
  destruct (Since now (createdAt e0) >? interval); [|reflexivity].
  apply lookup_delete_ne. congruence.
Qed.

Lemma reapRange_in interval now order m k e :
  NoDup order.*1 -> (k, e) ∈ order -> m !! k = Some e ->
  reapRange interval now order m !! k =
    if expired interval now e then None else Some e.
Proof.
  unfold reapRange. revert m.
  induction order as [|[k0 e0] order IH]; intros m Hnd Hin Hm; simpl.
  - by apply elem_of_nil in Hin.
  - rewrite fmap_cons in Hnd. simpl in Hnd.
    apply NoDup_cons in Hnd as [Hk0 Hnd].
    apply elem_of_cons in Hin as [Heq|Hin].
    + injection Heq as <- <-.
      fold (reapRange interval now order
              (if Since now (createdAt e) >? interval then delete k m else m)).
      rewrite reapRange_notin by assumption.
      unfold expired. destruct (Since now (createdAt e) >? interval).
      * apply lookup_delete_eq.
      * assumption.
    + assert (Hne : k0 <> k).
      { intros ->. apply Hk0. apply list_elem_of_fmap.
        exists (k, e). split; [reflexivity|assumption]. }
      apply IH; [assumption|assumption|].
      destruct (Since now (createdAt e0) >? interval); [|assumption].
      rewrite lookup_delete_ne by assumption. assumption.
Qed.

Lemma reapTick_lookup interval now p k :
  cache (reapTick interval now p) !! k =
    match cache p !! k with
    | Some e => if expired interval now e then None else Some e
    | None => None
    end.
Proof.
  unfold reapTick; simpl.
  destruct (cache p !! k) as [e|] eqn:Hk.
  - apply reapRange_in; [apply NoDup_fst_map_to_list| |assumption].
    by apply elem_of_map_to_list.
  - rewrite reapRange_notin; [assumption|].
    intros Hin. apply list_elem_of_fmap in Hin as [[k' e'] [-> Hin]].
    apply elem_of_map_to_list in Hin. simpl in Hk. congruence.
Qed.


Lemma expired_age interval now e :
  monoReading now -> monoReading (createdAt e) ->
  expired interval now e = (age now e >? interval).
Proof.
  intros Hn He. unfold expired, age. by rewrite Since_exact.
Qed.

Lemma stamped_NewCache : stamped NewCache.
Proof. intros k e H. simpl in H. by rewrite lookup_empty in H. Qed.

Lemma stamped_Add now key value p :
  monoReading now -> stamped p -> stamped (Add now key value p).
Proof.
  intros Hn Hp k e. unfold Add; simpl.
  rewrite lookup_insert_Some. intros [[_ <-]|[_ H]]; [exact Hn|].
  exact (Hp k e H).
Qed.

(** The entries that a sweep at [now] is specified to keep. *)
Definition fresh (interval now : Z) (ke : string * cacheEntry) : Prop :=
  age now ke.2 <= interval.

#[global] Instance fresh_dec interval now ke : Decision (fresh interval now ke).
Proof. unfold fresh. apply _. Defined.

Lemma Get_Add_fst now k v p : (Get k (Add now k v p)).1 = (v, true).
Proof.
  unfold Get. cbn [Add cache].
  rewrite lookup_insert_eq. reflexivity.
Qed.

(** *** Properties of the three operations *)

(** C1.  For every key [k] and value [v], [Add(k, v)] followed at once by
    [Get(k)] (no sweep in between) returns [(v, true)], and the read leaves
    the cache as [Add] left it. *)
Theorem Get_after_Add now k v p :
  Get k (Add now k v p) = ((v, true), Add now k v p).
Proof.
  unfold Get. cbn [Add cache].
  rewrite lookup_insert_eq. reflexivity.
Qed.

(** C2.  One sweep at clock reading [now] removes exactly the expired
    entries: the mapping afterwards is the mapping before restricted to the
    entries with [now - createdAt <= interval]; an entry whose age exceeds
    the interval is gone, an entry whose age does not exceed it is kept as it
    was. *)
Theorem reapTick_removes_exactly_expired interval now p :
  monoReading now -> stamped p ->
  cache (reapTick interval now p) = filter (fresh interval now) (cache p)
  /\ (forall k e, cache p !! k = Some e -> interval < age now e ->
        cache (reapTick interval now p) !! k = None)
  /\ (forall k e, cache p !! k = Some e -> age now e <= interval ->
        cache (reapTick interval now p) !! k = Some e).
Proof.
  intros Hnow Hp.
  assert (Hlk : forall k e, cache p !! k = Some e ->
            cache (reapTick interval now p) !! k =
              if age now e >? interval then None else Some e).
  { intros k e Hk. rewrite reapTick_lookup, Hk.
    rewrite expired_age; [reflexivity|assumption|]. exact (Hp k e Hk). }
  split; [|split].
  - apply map_eq. intros k.
    rewrite map_lookup_filter.
    destruct (cache p !! k) as [e|] eqn:Hk.
    + rewrite (Hlk k e Hk). cbn [mbind option_bind]. unfold fresh; cbn [snd].
      destruct (Z.gtb_spec (age now e) interval) as [Hgt|Hle].
      * rewrite option_guard_False by lia. reflexivity.
      * rewrite option_guard_True by lia. reflexivity.
    + rewrite reapTick_lookup, Hk. reflexivity.
  - intros k e Hk Hage. rewrite (Hlk k e Hk).
    destruct (Z.gtb_spec (age now e) interval); [reflexivity|lia].
  - intros k e Hk Hage. rewrite (Hlk k e Hk).
    destruct (Z.gtb_spec (age now e) interval); [lia|reflexivity].
Qed.

Lemma reapTick_removes_exactly_expired_witness :
  cache (reapTick 5 10 (Add 7 "b" (Slice []) (Add 0 "a" Nil NewCache))) !! "a"
    = None
  /\ cache (reapTick 5 10 (Add 7 "b" (Slice []) (Add 0 "a" Nil NewCache)))
       !! "b" = Some {| createdAt := 7; val := Slice [] |}.
Proof.
  assert (Hnow : monoReading 10) by (unfold monoReading; lia).
  assert (Hp : stamped (Add 7 "b" (Slice []) (Add 0 "a" Nil NewCache))).
  { apply stamped_Add; [unfold monoReading; lia|].
    apply stamped_Add; [unfold monoReading; lia|].
    apply stamped_NewCache. }
  destruct (reapTick_removes_exactly_expired 5 10 _ Hnow Hp)
    as (_ & Hgone & Hkept).
  split.
  - apply (Hgone "a" {| createdAt := 0; val := Nil |}).
    + reflexivity.
    + unfold age; cbn [createdAt]. lia.
  - apply (Hkept "b" {| createdAt := 7; val := Slice [] |}).
    + reflexivity.
    + unfold age; cbn [createdAt]. lia.
Defined.

(** C5.  Re-adding a key is last-write-wins: after [Add(k, v); Add(k, v)] a
    [Get(k)] still returns [(v, true)], and after [Add(k, v); Add(k, v2)] it
    returns [(v2, true)].  The two calls read the clock at [t1] and [t2]. *)
Theorem Add_last_write_wins t1 t2 k v v2 p :
  (Get k (Add t2 k v (Add t1 k v p))).1 = (v, true)
  /\ (Get k (Add t2 k v2 (Add t1 k v p))).1 = (v2, true)
  /\ Add t2 k v2 (Add t1 k v p) = Add t2 k v2 p.
Proof.
  split; [|split].
  - rewrite Get_Add_fst. reflexivity.
  - rewrite Get_Add_fst. reflexivity.
  - unfold Add; cbn [cache]. f_equal. apply insert_insert_eq.
Qed.

End Pokecache.

(** ** The cache over time: callers, clock and sweeper *)

Module Timeline.
Import GoTime Pokecache.

(** A running program that owns one cache: the monotonic clock, the
    interval given to [NewCache], the time at which the sweeper's ticker
    will next fire, and the cache itself. *)
Record Process : Type := mkProcess {
  clock : Z;
  period : Z;
  due : Z;
  store : Cache;
}.

(** The state right after [NewCache(interval)] is called at clock reading
    [start]: [time.NewTicker(interval)] delivers its first tick one interval
    later. *)
Definition spawn (interval start : Z) : Process :=
  {| clock := start; period := interval; due := start + interval;
     store := NewCache |}.

(** [NewCache(interval)] with its [go cache.reapLoop(interval)]:
    [time.NewTicker] panics on a non-positive interval, which ends the
    program. *)
Definition launch (interval start : Z) : option Process :=
  if 0 <? interval then Some (spawn interval start) else None.

(** The sweeper receives one tick: it sweeps at the tick's time and the
    ticker is due again one period later. *)
Definition tick (s : Process) : Process :=
  {| clock := clock s; period := period s; due := due s + period s;
     store := reapTick (period s) (due s) (store s) |}.

Fixpoint fire (n : nat) (s : Process) : Process :=
  match n with
  | O => s
  | S n' => fire n' (tick s)
  end.

(** How many ticks fall at or before [t]. *)
Definition ticksDue (s : Process) (t : Z) : nat :=
  if due s <=? t then Z.to_nat ((t - due s) / period s + 1) else 0%nat.

(** The clock advances by [d] nanoseconds; every tick that falls in the
    meantime is served, in order.  A tick that falls on the new reading is
    served before the calls made at that reading. *)
Definition elapse (d : N) (s : Process) : Process :=
  let t := clock s + Z.of_N d in
  let s' := fire (ticksDue s t) s in
  {| clock := t; period := period s'; due := due s'; store := store s' |}.

Inductive event : Type :=
| Elapse (d : N)
| CallAdd (key : string) (value : Bytes)
| CallGet (key : string).

Definition step (s : Process) (ev : event) : Process :=
  match ev with
  | Elapse d => elapse d s
  | CallAdd key value =>
      {| clock := clock s; period := period s; due := due s;
         store := Add (clock s) key value (store s) |}
  | CallGet key =>
      {| clock := clock s; period := period s; due := due s;
         store := (Get key (store s)).2 |}
  end.

Definition run (evs : list event) (s : Process) : Process :=
  foldl step s evs.

(** What a caller sees when it calls [Get] in state [s]. *)
Definition observe (key : string) (s : Process) : Bytes * bool :=
  (Get key (store s)).1.

(** The first tick strictly later than [x], for a ticker created at [start]
    that fires every [interval]. *)
Definition firstTickAfter (interval start x : Z) : Z :=
  start + interval * ((x - start) / interval + 1).

(** [ev] does not write key [k]. *)
Definition spares (k : string) (ev : event) : Prop :=
  match ev with
  | CallAdd key _ => key <> k
  | _ => True
  end.

(** The ticker of [s] follows the schedule [start + j * interval]. *)
Definition onSchedule (interval start : Z) (s : Process) : Prop :=
  period s = interval /\ start <= clock s /\
  due s = firstTickAfter interval start (clock s).

(** No entry is stamped later than the clock reads. *)
Definition pastStamps (s : Process) : Prop :=
  forall k e, cache (store s) !! k = Some e -> createdAt e <= clock s.

(** *** Arithmetic of the schedule *)

Lemma firstTickAfter_bounds interval start x :
  0 < interval ->
  x < firstTickAfter interval start x <= x + interval.
Proof.
  intros HI. unfold firstTickAfter.
  pose proof (Z.mul_div_le (x - start) interval HI).
  pose proof (Z.mul_succ_div_gt (x - start) interval HI).
  lia.
Qed.

Lemma firstTickAfter_least interval start x j :
  0 < interval -> x < start + interval * j ->
  firstTickAfter interval start x <= start + interval * j.
Proof.
  intros HI Hx. unfold firstTickAfter.
  assert ((x - start) / interval < j).
  { apply Z.div_lt_upper_bound; lia. }
  nia.
Qed.

Lemma firstTickAfter_shift interval start x :
  0 < interval ->
  firstTickAfter interval start (x + interval) =
    firstTickAfter interval start x + interval.
Proof.
  intros HI. unfold firstTickAfter.
  replace (x + interval - start) with (x - start + 1 * interval) by lia.
  rewrite Z.div_add by lia. lia.
Qed.

Lemma firstTickAfter_same interval start x y :
  0 < interval -> x <= y -> y < firstTickAfter interval start x ->
  firstTickAfter interval start y = firstTickAfter interval start x.
Proof.
  intros HI Hxy Hy. unfold firstTickAfter in *.
  pose proof (Z.mul_div_le (x - start) interval HI).
  assert ((y - start) / interval = (x - start) / interval) as ->;
    [|reflexivity].
  apply Z.le_antisymm.
  - apply Z.lt_succ_r. apply Z.div_lt_upper_bound; lia.
  - apply Z.div_le_mono; lia.
Qed.

Lemma firstTickAfter_jump interval start due t :
  0 < interval -> due <= t ->
  (exists j, due = start + interval * j) ->
  due + (Z.of_nat (Z.to_nat ((t - due) / interval + 1))) * interval =
    firstTickAfter interval start t.
Proof.
  intros HI Hdue [j ->]. unfold firstTickAfter.
  assert (0 <= (t - (start + interval * j)) / interval).
  { apply Z.div_pos; lia. }
  rewrite Z2Nat.id by lia.
  replace (t - (start + interval * j)) with
    (t - start + (- j) * interval) by lia.
  rewrite Z.div_add by lia. lia.
Qed.

(** *** Construction *)

Lemma launch_positive interval start :
  0 < interval -> launch interval start = Some (spawn interval start).
Proof.
  intros HI. unfold launch.
  destruct (Z.ltb_spec 0 interval); [reflexivity|lia].
Qed.

Lemma launch_nonpositive interval start :
  interval <= 0 -> launch interval start = None.
Proof.
  intros HI. unfold launch.
  destruct (Z.ltb_spec 0 interval); [lia|reflexivity].
Qed.

(** *** Ticks *)

Lemma fire_period n s : period (fire n s) = period s.
Proof. revert s. induction n as [|n IH]; intros s; simpl; [|rewrite IH]; reflexivity. Qed.

Lemma fire_clock n s : clock (fire n s) = clock s.
Proof. revert s. induction n as [|n IH]; intros s; simpl; [|rewrite IH]; reflexivity. Qed.

Lemma fire_due n s : due (fire n s) = due s + Z.of_nat n * period s.
Proof.
  revert s. induction n as [|n IH]; intros s.
  - simpl. lia.
  - cbn [fire]. rewrite IH. cbn [tick due period]. lia.
Qed.

Lemma tick_lookup s k :
  cache (store (tick s)) !! k =
    match cache (store s) !! k with
    | Some e => if expired (period s) (due s) e then None else Some e
    | None => None
    end.
Proof. unfold tick; cbn [store]. apply reapTick_lookup. Qed.

Lemma fire_lookup_None n s k :
  cache (store s) !! k = None -> cache (store (fire n s)) !! k = None.
Proof.
  revert s. induction n as [|n IH]; intros s Hk; cbn [fire]; [assumption|].
  apply IH. rewrite tick_lookup, Hk. reflexivity.
Qed.

Lemma fire_lookup_Some n s k e :
  cache (store (fire n s)) !! k = Some e -> cache (store s) !! k = Some e.
Proof.
  revert s. induction n as [|n IH]; intros s Hk; cbn [fire] in Hk; [assumption|].
  apply IH in Hk. rewrite tick_lookup in Hk.
  destruct (cache (store s) !! k) as [e0|]; [|discriminate].
  destruct (expired (period s) (due s) e0); [discriminate|assumption].
Qed.

(** After [n] ticks an entry is gone exactly when the last of them found
    it older than the period. *)
Lemma fire_lookup_entry n s k e :
  0 < period s -> monoReading (createdAt e) -> 0 <= due s ->
  due s + (Z.of_nat n - 1) * period s < 2 ^ 63 ->
  cache (store s) !! k = Some e ->
  cache (store (fire n s)) !! k =
    if (0 <? Z.of_nat n) &&
       (due s + (Z.of_nat n - 1) * period s - createdAt e >? period s)
    then None else Some e.
Proof.
  revert s. induction n as [|n IH]; intros s HI He Hdue Hlast Hk.
  - simpl. assumption.
  - cbn [fire]. rewrite Nat2Z.inj_succ in *.
    replace (Z.succ (Z.of_nat n) - 1) with (Z.of_nat n) in * by lia.
    assert (Hd : monoReading (due s)) by (unfold monoReading; nia).
    pose proof (tick_lookup s k) as Ht. rewrite Hk in Ht.
    unfold expired in Ht. rewrite (Since_exact _ _ Hd He) in Ht.
    destruct (Z.ltb_spec 0 (Z.succ (Z.of_nat n))) as [_|?]; [|lia].
    cbn [andb].
    destruct (Z.gtb_spec (due s - createdAt e) (period s)) as [Hgt|Hle].
    + rewrite (fire_lookup_None _ _ _ Ht).
      destruct (Z.gtb_spec (due s + Z.of_nat n * period s - createdAt e)
                  (period s)); [reflexivity|nia].
    + rewrite (IH (tick s)); cbn [tick period due]; try assumption; try nia.
      destruct (Z.ltb_spec 0 (Z.of_nat n)) as [Hn|Hn]; cbn [andb].
      * replace (due s + period s + (Z.of_nat n - 1) * period s)
          with (due s + Z.of_nat n * period s) by lia.
        reflexivity.
      * assert (Z.of_nat n = 0) as -> by lia.
        destruct (Z.gtb_spec (due s + 0 * period s - createdAt e)
                    (period s)); [lia|reflexivity].
Qed.

(** *** The schedule is kept *)

Lemma spawn_onSchedule interval start :
  0 < interval -> onSchedule interval start (spawn interval start).
Proof.
  intros HI. unfold onSchedule, spawn, firstTickAfter; cbn.
  rewrite Z.sub_diag, Z.div_0_l by lia. lia.
Qed.

Lemma elapse_clock d s : clock (elapse d s) = clock s + Z.of_N d.
Proof. reflexivity. Qed.

Lemma elapse_due interval start d s :
  0 < interval -> onSchedule interval start s ->
  due (elapse d s) = firstTickAfter interval start (clock s + Z.of_N d).
Proof.
  intros HI (Hp & Hc & Hd). unfold elapse, ticksDue; cbn [due].
  rewrite fire_due, Hp.
  destruct (Z.leb_spec (due s) (clock s + Z.of_N d)) as [Hle|Hgt].
  - apply firstTickAfter_jump; [assumption|assumption|].
    rewrite Hd. unfold firstTickAfter. eauto.
  - rewrite Hd in *. simpl.
    rewrite firstTickAfter_same with (x := clock s) (y := clock s + Z.of_N d);
      lia.
Qed.

Lemma step_onSchedule interval start s ev :
  0 < interval -> onSchedule interval start s ->
  onSchedule interval start (step s ev).
Proof.
  intros HI Hs. destruct ev as [d|key value|key]; [|exact Hs|exact Hs].
  pose proof (elapse_due interval start d s HI Hs) as Hd.
  destruct Hs as (Hp & Hc & _).
  split; [|split].
  - unfold step, elapse; cbn [period]. by rewrite fire_period.
  - cbn [step]. rewrite elapse_clock. lia.
  - cbn [step]. rewrite Hd, elapse_clock. reflexivity.
Qed.

Lemma run_snoc evs ev s : run (evs ++ [ev]) s = step (run evs s) ev.
Proof. unfold run. by rewrite foldl_app. Qed.

Lemma run_onSchedule interval start evs s :
  0 < interval -> onSchedule interval start s ->
  onSchedule interval start (run evs s).
Proof.
  intros HI Hs. induction evs as [|ev evs IH] using rev_ind; [exact Hs|].
  rewrite run_snoc. by apply step_onSchedule.
Qed.

Lemma step_clock_mono s ev : clock s <= clock (step s ev).
Proof. destruct ev; cbn [step clock]; [rewrite elapse_clock|..]; lia. Qed.

Lemma run_clock_mono evs s : clock s <= clock (run evs s).
Proof.
  induction evs as [|ev evs IH] using rev_ind; [simpl; lia|].
  rewrite run_snoc. pose proof (step_clock_mono (run evs s) ev). lia.
Qed.

(** What a stretch of time does to one entry. *)
Lemma elapse_lookup_entry interval start d s k e :
  0 < interval -> 0 <= start -> onSchedule interval start s ->
  clock s + Z.of_N d < 2 ^ 63 -> monoReading (createdAt e) ->
  cache (store s) !! k = Some e ->
  cache (store (elapse d s)) !! k =
    if (due s <=? clock s + Z.of_N d) &&
       (firstTickAfter interval start (clock s + Z.of_N d) - interval
          - createdAt e >? interval)
    then None else Some e.
Proof.
  intros HI H0 Hs Hfin He Hk.
  pose proof Hs as (Hp & Hc & Hd).
  pose proof (firstTickAfter_bounds interval start (clock s) HI) as Hb.
  pose proof (firstTickAfter_bounds interval start
                (clock s + Z.of_N d) HI) as Hbt.
  unfold elapse, ticksDue; cbn [store].
  destruct (Z.leb_spec (due s) (clock s + Z.of_N d)) as [Hle|Hgt];
    cbn [andb fire]; [|assumption].
  assert (Hj : due s
            + Z.of_nat (Z.to_nat ((clock s + Z.of_N d - due s) / interval + 1))
              * interval
            = firstTickAfter interval start (clock s + Z.of_N d)).
  { apply firstTickAfter_jump; [assumption|assumption|].
    rewrite Hd. unfold firstTickAfter. eauto. }
  assert (Hn : 0 < Z.of_nat
            (Z.to_nat ((clock s + Z.of_N d - due s) / interval + 1))).
  { assert (0 <= (clock s + Z.of_N d - due s) / interval)
      by (apply Z.div_pos; lia).
    lia. }
  rewrite Hp.
  set (n := Z.to_nat ((clock s + Z.of_N d - due s) / interval + 1)) in *.
  rewrite (fire_lookup_entry n s k e); rewrite ?Hp; try assumption; try lia.
  destruct (Z.ltb_spec 0 (Z.of_nat n)); [|lia]. cbn [andb].
  replace (due s + (Z.of_nat n - 1) * interval)
    with (firstTickAfter interval start (clock s + Z.of_N d) - interval)
    by lia.
  reflexivity.
Qed.

Lemma Get_snd k p : (Get k p).2 = p.
Proof. unfold Get. destruct (cache p !! k); reflexivity. Qed.

Lemma step_spares_lookup s ev k :
  spares k ev -> forall e,
  cache (store (step s ev)) !! k = Some e -> cache (store s) !! k = Some e.
Proof.
  destruct ev as [d|key value|key]; cbn [spares step store]; intros Hsp e.
  - unfold elapse; cbn [store]. apply fire_lookup_Some.
  - unfold Add; cbn [cache]. by rewrite lookup_insert_ne.
  - by rewrite Get_snd.
Qed.

Lemma step_spares_None s ev k :
  spares k ev ->
  cache (store s) !! k = None -> cache (store (step s ev)) !! k = None.
Proof.
  intros Hsp Hk.
  destruct (cache (store (step s ev)) !! k) as [e|] eqn:He; [|reflexivity].
  apply (step_spares_lookup s ev k Hsp) in He. congruence.
Qed.

Section Lifetime.

Variables (interval start : Z).
Hypothesis interval_pos : 0 < interval.
Hypothesis start_nonneg : 0 <= start.

Variables (k : string) (v : Bytes) (T : Z).
Hypothesis T_late : start <= T.

(** The first tick that finds the entry stamped [T] older than the
    interval. *)
Let expiry : Z := firstTickAfter interval start (T + interval).

(** The entry for [k] written at [T] is in the cache until [expiry] and
    absent from then on. *)
Definition lives (s : Process) : Prop :=
  onSchedule interval start s /\ T <= clock s /\
  (clock s < expiry ->
     cache (store s) !! k = Some {| createdAt := T; val := v |}) /\
  (expiry <= clock s -> cache (store s) !! k = None).

Lemma expiry_window : T + interval < expiry <= T + 2 * interval.
Proof.
  unfold expiry.
  pose proof (firstTickAfter_bounds interval start (T + interval) interval_pos).
  lia.
Qed.

Lemma expiry_last_tick t :
  (t < expiry ->
     firstTickAfter interval start t - interval <= T + interval) /\
  (expiry <= t ->
     T + interval < firstTickAfter interval start t - interval).
Proof.
  pose proof expiry_window as Hw. unfold expiry, firstTickAfter in *.
  pose proof (Z.mul_div_le (t - start) interval interval_pos).
  pose proof (Z.mul_div_le (T + interval - start) interval interval_pos).
  split; intros Ht.
  - assert ((t - start) / interval < (T + interval - start) / interval + 1).
    { apply Z.div_lt_upper_bound; lia. }
    nia.
  - assert ((T + interval - start) / interval + 1 <= (t - start) / interval).
    { apply Z.div_le_lower_bound; lia. }
    nia.
Qed.

Lemma lives_step s ev :
  spares k ev -> clock (step s ev) < 2 ^ 63 -> lives s -> lives (step s ev).
Proof.
  intros Hsp Hfin (Hs & HT & Hin & Hout).
  pose proof (step_onSchedule interval start s ev interval_pos Hs) as Hs'.
  pose proof (step_clock_mono s ev) as Hmono.
  split; [exact Hs'|]. split; [lia|].
  destruct (Z.lt_ge_cases (clock s) expiry) as [Hlt|Hge].
  - specialize (Hin Hlt).
    destruct ev as [d|key value|key]; cbn [spares] in Hsp.
    + cbn [step] in *. rewrite elapse_clock in *.
      rewrite (elapse_lookup_entry interval start d s k
                 {| createdAt := T; val := v |}
                 interval_pos start_nonneg Hs Hfin) by
        (try assumption; cbn [createdAt]; unfold monoReading; lia).
      cbn [createdAt].
      destruct (expiry_last_tick (clock s + Z.of_N d)) as [Hbefore Hafter].
      destruct Hs as (_ & _ & Hd).
      split; intros Hc.
      * specialize (Hbefore Hc).
        destruct (Z.gtb_spec
          (firstTickAfter interval start (clock s + Z.of_N d) - interval - T)
          interval); [lia|].
        by rewrite andb_false_r.
      * specialize (Hafter Hc).
        assert (due s <= expiry).
        { rewrite Hd. unfold expiry at 1. unfold firstTickAfter at 2.
          apply firstTickAfter_least; [assumption|].
          fold (firstTickAfter interval start (T + interval)).
          fold expiry. lia. }
        destruct (Z.leb_spec (due s) (clock s + Z.of_N d)); [|lia].
        destruct (Z.gtb_spec
          (firstTickAfter interval start (clock s + Z.of_N d) - interval - T)
          interval); [reflexivity|lia].
    + cbn [step clock store] in *. unfold Add; cbn [cache].
      rewrite lookup_insert_ne by assumption. split; [auto|lia].
    + cbn [step clock store] in *. rewrite Get_snd. split; [auto|lia].
  - specialize (Hout Hge). split; [lia|]. intros _.
    by apply step_spares_None.
Qed.

Lemma lives_run evs s :
  Forall (spares k) evs -> clock (run evs s) < 2 ^ 63 ->
  lives s -> lives (run evs s).
Proof.
  intros Hsp Hfin Hs.
  induction evs as [|ev evs IH] using rev_ind; [exact Hs|].
  rewrite run_snoc in *.
  apply Forall_app in Hsp as [Hevs Hev].
  rewrite Forall_singleton in Hev.
  apply lives_step; [assumption|assumption|].
  apply IH; [assumption|].
  pose proof (step_clock_mono (run evs s) ev). lia.
Qed.

End Lifetime.

(** *** Stamps never run ahead of the clock *)

Lemma spawn_pastStamps interval start : pastStamps (spawn interval start).
Proof. intros k e H. cbn in H. by rewrite lookup_empty in H. Qed.

Lemma step_pastStamps s ev : pastStamps s -> pastStamps (step s ev).
Proof.
  intros Hs k e. pose proof (step_clock_mono s ev) as Hmono.
  destruct ev as [d|key value|key]; cbn [step store clock] in *.
  - unfold elapse; cbn [store clock]. intros H%fire_lookup_Some.
    specialize (Hs k e H). cbn [elapse clock] in Hmono. lia.
  - unfold Add; cbn [cache]. rewrite lookup_insert_Some.
    intros [[_ <-]|[_ H]]; cbn [createdAt]; [lia|]. exact (Hs k e H).
  - rewrite Get_snd. apply Hs.
Qed.

Lemma run_pastStamps evs s : pastStamps s -> pastStamps (run evs s).
Proof.
  intros Hs. induction evs as [|ev evs IH] using rev_ind; [exact Hs|].
  rewrite run_snoc. by apply step_pastStamps.
Qed.

Lemma run_spares_None evs s k :
  Forall (spares k) evs ->
  cache (store s) !! k = None -> cache (store (run evs s)) !! k = None.
Proof.
  intros Hsp Hk. induction evs as [|ev evs IH] using rev_ind; [exact Hk|].
  rewrite run_snoc. apply Forall_app in Hsp as [Hevs Hev].
  rewrite Forall_singleton in Hev.
  apply step_spares_None; [assumption|]. by apply IH.
Qed.

Lemma observe_Some k s e :
  cache (store s) !! k = Some e -> observe k s = (val e, true).
Proof. unfold observe, Get. by intros ->. Qed.

Lemma observe_None k s :
  cache (store s) !! k = None -> observe k s = (Nil, false).
Proof. unfold observe, Get. by intros ->. Qed.

(** *** Properties over time *)

(** C3.  For a cache built with interval [I] (ticks every [I] from the
    construction time [start]; with [start = 0] at the multiples of [I]), an
    entry added at time [T] and not overwritten is returned by [Get] at
    every time before the first tick later than [T + I]; from that tick on
    it is absent; that tick comes no later than [T + 2I], so the entry is
    absent at every time [>= T + 2I + eps].  A stale entry thus survives at
    most one interval past its nominal expiry [T + I]. *)
Theorem entry_expires_within_two_intervals interval start pre k v post :
  0 < interval -> 0 <= start ->
  Forall (spares k) post ->
  let s1 := run pre (spawn interval start) in
  let T := clock s1 in
  let s2 := run post (step s1 (CallAdd k v)) in
  let expiry := firstTickAfter interval start (T + interval) in
  clock s2 < 2 ^ 63 ->
  (clock s2 < expiry -> observe k s2 = (v, true))
  /\ (expiry <= clock s2 -> observe k s2 = (Nil, false))
  /\ (forall eps, 0 < eps -> T + 2 * interval + eps <= clock s2 ->
        observe k s2 = (Nil, false))
  /\ T + interval < expiry <= T + 2 * interval.
Proof.
  intros HI H0 Hsp s1 T s2 expiry Hfin.
  assert (Hs1 : onSchedule interval start s1).
  { apply run_onSchedule; [assumption|]. by apply spawn_onSchedule. }
  assert (HT : start <= T) by apply Hs1.
  pose proof (expiry_window interval start HI T) as Hw.
  fold expiry in Hw.
  assert (Hlive : lives interval start k v T s2).
  { apply lives_run; try assumption.
    split; [exact Hs1|]. cbn [step clock store]. split; [fold T; lia|].
    unfold Add; cbn [cache]. rewrite lookup_insert_eq.
    split; [reflexivity|]. fold T. lia. }
  destruct Hlive as (_ & _ & Hin & Hout). fold expiry in Hin, Hout.
  split; [|split; [|split]].
  - intros Hc. by rewrite (observe_Some _ _ _ (Hin Hc)).
  - intros Hc. by apply observe_None, Hout.
  - intros eps Heps Hc. apply observe_None, Hout. lia.
  - exact Hw.
Qed.

Lemma entry_expires_within_two_intervals_witness :
  observe "k" (run [Elapse 7; CallGet "k"; CallAdd "j" Nil; Elapse 9]
                 (step (run [Elapse 3] (spawn 10 0))
                    (CallAdd "k" (Slice []))))
    = (Slice [], true)
  /\ observe "k" (run [Elapse 7; CallAdd "j" Nil; Elapse 10]
                    (step (run [Elapse 3] (spawn 10 0))
                       (CallAdd "k" (Slice []))))
    = (Nil, false).
Proof.
  split.
  - refine (proj1 (entry_expires_within_two_intervals 10 0 [Elapse 3] "k"
              (Slice []) [Elapse 7; CallGet "k"; CallAdd "j" Nil; Elapse 9]
              _ _ _ _) _).
    + lia.
    + lia.
    + repeat constructor. discriminate.
    + vm_compute. reflexivity.
    + vm_compute. reflexivity.
  - refine (proj1 (proj2 (entry_expires_within_two_intervals 10 0 [Elapse 3]
              "k" (Slice []) [Elapse 7; CallAdd "j" Nil; Elapse 10]
              _ _ _ _)) _).
    + lia.
    + lia.
    + repeat constructor. discriminate.
    + vm_compute. reflexivity.
    + vm_compute. discriminate.
Defined.

(** C4.  [Get] on a key that is not in the mapping returns [(nil, false)]:
    on the cache [NewCache] has just built, after any history that never
    added the key, and after a sweep that removed the key.  [Get] is total
    (it neither fails nor panics); whether the key was found is told by the
    boolean alone, which is [false] exactly when the key is absent, and the
    bytes are then nil. *)
Theorem Get_signals_absence_by_flag k :
  Get k NewCache = ((Nil, false), NewCache)
  /\ (forall interval start evs,
        Forall (spares k) evs ->
        observe k (run evs (spawn interval start)) = (Nil, false))
  /\ (forall interval now p e,
        cache p !! k = Some e -> expired interval now e = true ->
        Get k (reapTick interval now p)
          = ((Nil, false), reapTick interval now p))
  /\ (forall p, exists r,
        Get k p = (r, p)
        /\ (r.2 = false <-> cache p !! k = None)
        /\ (r.2 = false -> r.1 = Nil)).
Proof.
  split; [|split; [|split]].
  - unfold Get, NewCache; cbn [cache]. by rewrite lookup_empty.
  - intros interval start evs Hsp. apply observe_None.
    apply run_spares_None; [assumption|]. cbn. apply lookup_empty.
  - intros interval now p e Hk Hexp. unfold Get.
    rewrite reapTick_lookup, Hk, Hexp. reflexivity.
  - intros p. unfold Get. destruct (cache p !! k) as [e|].
    + exists (val e, true). cbn. intuition discriminate.
    + exists (Nil, false). cbn. intuition reflexivity.
Qed.

Lemma Get_signals_absence_by_flag_witness :
  observe "k" (run [Elapse 4; CallAdd "j" (Slice []); CallGet "k"; Elapse 30]
                 (spawn 10 0)) = (Nil, false)
  /\ Get "k" (reapTick 10 20 (Add 3 "k" (Slice []) NewCache))
     = ((Nil, false), reapTick 10 20 (Add 3 "k" (Slice []) NewCache)).
Proof.
  destruct (Get_signals_absence_by_flag "k") as (_ & Hnever & Hswept & _).
  split.
  - apply Hnever. repeat constructor. discriminate.
  - apply (Hswept 10 20 _ {| createdAt := 3; val := Slice [] |}).
    + reflexivity.
    + vm_compute. reflexivity.
Defined.

(** C6.  In every state the program can reach, the [createdAt] stored for a
    key never decreases: [Add(k, _)] replaces it with the current clock
    reading, which is not earlier than the stamp it replaces; every other
    event leaves the entry of [k], if it survives, as it was; hence along any
    further history the stamp found later is never earlier. *)
Theorem createdAt_never_decreases interval start pre k e :
  let s := run pre (spawn interval start) in
  cache (store s) !! k = Some e ->
  (forall v,
     cache (store (step s (CallAdd k v))) !! k
       = Some {| createdAt := clock s; val := v |}
     /\ createdAt e <= clock s)
  /\ (forall ev e', spares k ev ->
        cache (store (step s ev)) !! k = Some e' -> e' = e)
  /\ (forall post e',
        cache (store (run post s)) !! k = Some e' ->
        createdAt e <= createdAt e').
Proof.
  intros s Hk.
  assert (Hpast : pastStamps s).
  { apply run_pastStamps, spawn_pastStamps. }
  split; [|split].
  - intros v. split; [|exact (Hpast k e Hk)].
    cbn [step store]. unfold Add; cbn [cache]. apply lookup_insert_eq.
  - intros ev e' Hsp He'.
    apply (step_spares_lookup s ev k Hsp) in He'. congruence.
  - intros post.
    induction post as [|ev post IH] using rev_ind; intros e' He'.
    + cbn in He'. assert (e' = e) by congruence. subst. lia.
    + rewrite run_snoc in He'.
      destruct ev as [d|key value|key].
      * apply IH. cbn [step] in He'. unfold elapse in He'; cbn [store] in He'.
        by apply fire_lookup_Some in He'.
      * cbn [step store] in He'. unfold Add in He'; cbn [cache] in He'.
        apply lookup_insert_Some in He' as [[_ <-]|[_ He']];
          [|by apply IH].
        cbn [createdAt].
        pose proof (Hpast k e Hk). pose proof (run_clock_mono post s). lia.
      * apply IH. cbn [step store] in He'. by rewrite Get_snd in He'.
Qed.

Lemma createdAt_never_decreases_witness :
  exists e',
    cache (store (run [Elapse 25; CallAdd "k" Nil; Elapse 2]
                    (run [Elapse 3; CallAdd "k" (Slice [])] (spawn 10 0))))
      !! "k" = Some e'
    /\ 3 <= createdAt e'.
Proof.
  exists {| createdAt := 28; val := Nil |}.
  split; [reflexivity|].
  exact (proj2 (proj2 (createdAt_never_decreases 10 0
           [Elapse 3; CallAdd "k" (Slice [])] "k"
           {| createdAt := 3; val := Slice [] |} eq_refl))
         [Elapse 25; CallAdd "k" Nil; Elapse 2]
         {| createdAt := 28; val := Nil |} eq_refl).
Defined.

(** C7.  Frame conditions.  [Get] leaves the mapping as it found it, also
    when the entry it reads is expired; [Add(k, v)] leaves every entry with
    another key as it was and removes none; a sweep creates and overwrites
    nothing (what it leaves is part of what it found); so an entry that
    disappears in a step was removed by the sweeper, and an entry that
    appears or changes in a step was written by [Add] on its key. *)
Theorem frame_conditions :
  (forall k p, (Get k p).2 = p)
  /\ (forall now k v p k',
        k' <> k -> cache (Add now k v p) !! k' = cache p !! k')
  /\ (forall now k v p k',
        is_Some (cache p !! k') -> is_Some (cache (Add now k v p) !! k'))
  /\ (forall interval now p, cache (reapTick interval now p) ⊆ cache p)
  /\ (forall s ev k e,
        cache (store s) !! k = Some e ->
        cache (store (step s ev)) !! k = None ->
        exists d, ev = Elapse d)
  /\ (forall s ev k e',
        cache (store (step s ev)) !! k = Some e' ->
        cache (store s) !! k <> Some e' ->
        exists v, ev = CallAdd k v).
Proof.
  split; [exact Get_snd|].
  split.
  { intros now k v p k' Hne. unfold Add; cbn [cache].
    by rewrite lookup_insert_ne. }
  split.
  { intros now k v p k' Hk'. unfold Add; cbn [cache].
    destruct (decide (k = k')) as [->|Hne].
    - rewrite lookup_insert_eq. eauto.
    - by rewrite lookup_insert_ne. }
  split.
  { intros interval now p. apply map_subseteq_spec. intros k e.
    rewrite reapTick_lookup.
    destruct (cache p !! k) as [e0|]; [|discriminate].
    destruct (expired interval now e0); [discriminate|trivial]. }
  split.
  - intros s ev k e Hk Hgone.
    destruct ev as [d|key value|key]; [eauto| |]; exfalso.
    + cbn [step store] in Hgone. unfold Add in Hgone; cbn [cache] in Hgone.
      apply lookup_insert_None in Hgone as [Hgone _]. congruence.
    + cbn [step store] in Hgone. rewrite Get_snd in Hgone. congruence.
  - intros s ev k e' Hnew Hold.
    destruct ev as [d|key value|key].
    + exfalso. apply Hold. cbn [step] in Hnew.
      unfold elapse in Hnew; cbn [store] in Hnew.
      by apply fire_lookup_Some in Hnew.
    + cbn [step store] in Hnew. unfold Add in Hnew; cbn [cache] in Hnew.
      apply lookup_insert_Some in Hnew as [[-> _]|[_ Hnew]]; [eauto|].
      contradiction.
    + exfalso. apply Hold. cbn [step store] in Hnew.
      by rewrite Get_snd in Hnew.
Qed.

Lemma frame_conditions_witness :
  cache (Add 9 "k" Nil (Add 3 "j" (Slice []) NewCache)) !! "j"
    = Some {| createdAt := 3; val := Slice [] |}
  /\ (Get "j" (reapTick 10 20 (Add 3 "j" (Slice []) NewCache))).2
     = reapTick 10 20 (Add 3 "j" (Slice []) NewCache).
Proof.
  destruct frame_conditions as (Hget & Hadd & _).
  split.
  - rewrite (Hadd 9 "k" Nil (Add 3 "j" (Slice []) NewCache) "j").
    + reflexivity.
    + discriminate.
  - apply Hget.
Defined.

End Timeline.

(** ** The command-line layer *)

Module Main.
Import GoTime Pokecache.

(** A Go [error], by its message. *)
Definition error : Type := string.

(** What [http.Get] hands back on success: the status line and what reading
    the body to its end yields, namely the bytes received and the error
    that cut the read short, if any. *)
Record Response : Type := mkResponse {
  StatusCode : Z;
  Status : string;
  Body : list Byte.byte * option error;
}.

Definition StatusOK : Z := 200.

(** [io.ReadAll]: the slice it returns is never nil. *)
Definition ReadAll (body : list Byte.byte * option error)
    : Bytes * option error :=
  (Slice body.1, body.2).

Record config : Type := mkConfig {
  Url : string;
  Next : string;
  Previous : string;
  Cache : Pokecache.Cache;
}.

Record Stat : Type := mkStat {
  Stat_Name : string;
  Stat_Url : string;
}.

Record StatDetail : Type := mkStatDetail {
  BaseStat : Z;
  StatDetail_Stat : Stat;
}.

Record Type_ : Type := mkType {
  Type_Name : string;
  Type_Url : string;
}.

Record TypeDetails : Type := mkTypeDetails {
  Slot : Z;
  TypeDetails_Type : Type_;
}.

Record PokemonType : Type := mkPokemonType {
  Name : string;
  Height : Z;
  Weight : Z;
  Stats : list StatDetail;
  Types : list TypeDetails;
  BaseExperience : Z;
}.

Definition apiUrl : string := "https://pokeapi.co/api/v2/".

(** The program's mutable state: the configuration with its cache, the
    global [pokeDex], and what has been printed. *)
Record World : Type := mkWorld {
  cfg : config;
  pokeDex : gmap string PokemonType;
  stdout : list string;
}.

(** How a call ends. *)
Inductive outcome : Type :=
| Return (err : option error)
| Panic (msg : string).

(** The cache behind [c.Cache] after a method call on it. *)
Definition withCache (c : config) (p : Pokecache.Cache) : config :=
  {| Url := Url c; Next := Next c; Previous := Previous c; Cache := p |}.

Definition Println (line : string) (w : World) : World :=
  {| cfg := cfg w; pokeDex := pokeDex w; stdout := stdout w ++ [line] |}.

(** [rand.IntN(n)]: panics unless [n > 0]; otherwise the generator's draw
    [rnd] reduced to [[0, n)]. *)
Definition IntN (rnd n : Z) : option Z :=
  if n <=? 0 then None else Some (rnd mod n).

(** *** A concrete environment, to run the model *)

(** The white space of [strings.TrimSpace] within ASCII. *)
Definition asciiSpace (a : Ascii.ascii) : bool :=
  let n := Ascii.N_of_ascii a in
  ((9 <=? n) && (n <=? 13))%N || (n =? 32)%N.

Fixpoint trimLeft (s : string) : string :=
  match s with
  | String a s' => if asciiSpace a then trimLeft s' else s
  | EmptyString => EmptyString
  end.

(** [strings.TrimSpace] on ASCII text. *)
Definition trimSpaceASCII (s : string) : string :=
  String.rev (trimLeft (String.rev (trimLeft s))).

(** A stand-in for the JSON decoder: the first byte of the payload is the
    decimal digit of [base_experience]. *)
Definition digitUnmarshal (data : Bytes) : error + PokemonType :=
  match data with
  | Slice (b :: _) =>
      inr {| Name := "pikachu"; Height := 4; Weight := 60; Stats := [];
             Types := []; BaseExperience := Z.of_N (Byte.to_N b) - 48 |}
  | _ => inl "unexpected end of JSON input"
  end.

(** A server that answers 200 and then serves [body]. *)
Definition serve (body : list Byte.byte * option error)
    (url : string) : error + Response :=
  inr {| StatusCode := 200; Status := "200 OK"; Body := body |}.

Definition freshConfig : config :=
  {| Url := apiUrl; Next := ""; Previous := ""; Cache := NewCache |}.

Definition freshWorld : World :=
  {| cfg := freshConfig; pokeDex := ∅; stdout := [] |}.

Section Glue.

(** [strings.TrimSpace]. *)
Variable TrimSpace : string -> string.

(** [json.Unmarshal(data, &response)] on a zero [PokemonType]. *)
Variable Unmarshal : Bytes -> error + PokemonType.

(** [fetchData(url, c)]; [net] is what [http.Get] answers and [now] what
    the clock reads when the cache is written. *)
Definition fetchData (net : string -> error + Response) (now : Z)
    (url : string) (c : config) : (Bytes * option error) * config :=
  if decide (TrimSpace url = "") then
    ((Slice [], Some "Invalid input"), c)
  else
    let '((decodedData, ok), p) := Get url (Cache c) in
    let c := withCache c p in
    if ok then ((decodedData, None), c)
    else
      match net url with
      | inl err => ((Slice [], Some err), c)
      | inr res =>
          if negb (StatusCode res =? StatusOK) then
            ((Slice [], Some ("failed to fetch data: " +:+ Status res)), c)
          else
            let '(decodedData, err) := ReadAll (Body res) in
            let c := withCache c (Add now url decodedData (Cache c)) in
            match err with
            | Some e => ((Slice [], Some e), c)
            | None => ((decodedData, None), c)
            end
      end.

(** [catchPokemon(p, c)]; [rnd] is the random generator's draw. *)
Definition catchPokemon (net : string -> error + Response) (now rnd : Z)
    (p : string) (w : World) : outcome * World :=
  let printMsg := "Throwing a Pokeball at " +:+ p +:+ "..." in
  let w := Println printMsg w in
  let url := Url (cfg w) +:+ "pokemon/" +:+ p in
  let '((decodedData, err), c) := fetchData net now url (cfg w) in
  let w := {| cfg := c; pokeDex := pokeDex w; stdout := stdout w |} in
  match err with
  | Some e => (Return (Some e), Println ("failed to catch " +:+ e) w)
  | None =>
      match Unmarshal decodedData with
      | inl e => (Return (Some e), Println e w)
      | inr response =>
          let baseExperience := BaseExperience response in
          match IntN rnd baseExperience with
          | None => (Panic "invalid argument to IntN", w)
          | Some chance =>
              let willGotCaught := baseExperience - chance in
              if willGotCaught >? baseExperience ÷ 2 then
                let w := Println (p +:+ " was caught") w in
                (Return None,
                 {| cfg := cfg w; pokeDex := <[p := response]> (pokeDex w);
                    stdout := stdout w |})
              else (Return None, Println (p +:+ " escaped") w)
          end
      end
  end.

Lemma withCache_same c : withCache c (Cache c) = c.
Proof. by destruct c. Qed.

Lemma fetchData_hit net now url c e :
  TrimSpace url <> "" -> cache (Cache c) !! url = Some e ->
  fetchData net now url c = ((val e, None), c).
Proof.
  intros Hurl Hk. unfold fetchData.
  destruct (decide (TrimSpace url = "")) as [|_]; [contradiction|].
  unfold Get. rewrite Hk. by rewrite withCache_same.
Qed.

(** C9.  [fetchData] is not atomic on error.  When the URL passes the blank
    test, is not cached, and the request is answered with status 200 but
    reading the body fails with [e] after the bytes [part], the call returns
    the error [e] (with an empty slice) and has nevertheless stored [part]
    in the cache under the URL; a following [fetchData] of the same URL
    returns [part] from the cache with no error, whatever the network would
    answer. *)
Theorem fetchData_caches_body_of_failed_read net now url c res part e :
  TrimSpace url <> "" ->
  cache (Cache c) !! url = None ->
  net url = inr res -> StatusCode res = StatusOK ->
  Body res = (part, Some e) ->
  let r := fetchData net now url c in
  r.1 = (Slice [], Some e)
  /\ Cache r.2 = Add now url (Slice part) (Cache c)
  /\ cache (Cache r.2) !! url
       = Some {| createdAt := now; val := Slice part |}
  /\ (forall net' now',
        fetchData net' now' url r.2 = ((Slice part, None), r.2)).
Proof.
  intros Hurl Hmiss Hnet Hok Hbody r.
  assert (Hr : r = ((Slice [], Some e),
                    withCache c (Add now url (Slice part) (Cache c)))).
  { unfold r, fetchData.
    destruct (decide (TrimSpace url = "")) as [|_]; [contradiction|].
    unfold Get. rewrite Hmiss, Hnet, Hok, Z.eqb_refl. cbn [negb].
    unfold ReadAll. rewrite Hbody. cbn [fst snd].
    by rewrite withCache_same. }
  rewrite Hr. cbn [fst snd withCache Cache].
  assert (Hk : cache (Add now url (Slice part) (Cache c)) !! url
               = Some {| createdAt := now; val := Slice part |}).
  { unfold Add; cbn [cache]. apply lookup_insert_eq. }
  split; [reflexivity|]. split; [reflexivity|]. split; [exact Hk|].
  intros net' now'.
  rewrite (fetchData_hit net' now' url _
             {| createdAt := now; val := Slice part |}); auto.
Qed.

(** C10.  [catchPokemon] hands the decoded [base_experience] to
    [rand.IntN], which requires a positive argument.  Once the pokemon has
    been fetched and decoded, the call panics when [base_experience] is zero
    (as when the field is missing) or negative, and returns normally, with
    no error, when it is positive; so it returns exactly when
    [base_experience > 0]. *)
Theorem catchPokemon_panics_unless_base_experience_positive
    net now rnd p w data c response :
  fetchData net now (Url (cfg w) +:+ "pokemon/" +:+ p) (cfg w)
    = ((data, None), c) ->
  Unmarshal data = inr response ->
  let r := (catchPokemon net now rnd p w).1 in
  (BaseExperience response <= 0 -> r = Panic "invalid argument to IntN")
  /\ (0 < BaseExperience response -> r = Return None)
  /\ ((exists err, r = Return err) <-> 0 < BaseExperience response).
Proof.
  intros Hfetch Hdec r.
  assert (Hr : r = match IntN rnd (BaseExperience response) with
                   | None => Panic "invalid argument to IntN"
                   | Some _ => Return None
                   end).
  { unfold r, catchPokemon. cbn [Println cfg].
    rewrite Hfetch, Hdec.
    destruct (IntN rnd (BaseExperience response)) as [chance|];
      [|reflexivity].
    by destruct (BaseExperience response - chance
                   >? BaseExperience response ÷ 2). }
  rewrite Hr. unfold IntN.
  destruct (Z.leb_spec (BaseExperience response) 0) as [Hle|Hgt].
  - split; [reflexivity|]. split; [lia|].
    split; [intros [err Herr]; discriminate|lia].
  - split; [lia|]. split; [reflexivity|].
    split; [intros _; assumption|eauto].
Qed.

End Glue.

Lemma fetchData_caches_body_of_failed_read_witness :
  let url := apiUrl +:+ "pokemon/pikachu" in
  let broken := serve ([Byte.x7b], Some "unexpected EOF") in
  let r := fetchData trimSpaceASCII broken 5 url freshConfig in
  r.1 = (Slice [], Some "unexpected EOF")
  /\ fetchData trimSpaceASCII (serve ([], None)) 9 url r.2
     = ((Slice [Byte.x7b], None), r.2).
Proof.
  intros url broken r.
  assert (Hurl : trimSpaceASCII url <> "") by (vm_compute; discriminate).
  destruct (fetchData_caches_body_of_failed_read trimSpaceASCII broken 5 url
              freshConfig
              {| StatusCode := 200; Status := "200 OK";
                 Body := ([Byte.x7b], Some "unexpected EOF") |}
              [Byte.x7b] "unexpected EOF" Hurl eq_refl eq_refl eq_refl
              eq_refl) as (Herr & _ & _ & Hhit).
  split.
  - exact Herr.
  - apply Hhit.
Defined.

Lemma catchPokemon_panics_unless_base_experience_positive_witness :
  (catchPokemon trimSpaceASCII digitUnmarshal (serve ([Byte.x30], None))
     5 3 "pikachu" freshWorld).1 = Panic "invalid argument to IntN"
  /\ (catchPokemon trimSpaceASCII digitUnmarshal (serve ([Byte.x37], None))
        5 3 "pikachu" freshWorld).1 = Return None.
Proof.
  split.
  - refine (proj1 (catchPokemon_panics_unless_base_experience_positive
              trimSpaceASCII digitUnmarshal (serve ([Byte.x30], None)) 5 3
              "pikachu" freshWorld (Slice [Byte.x30]) _ _ _ _) _).
    + vm_compute. reflexivity.
    + reflexivity.
    + cbn. lia.
  - refine (proj1 (proj2 (catchPokemon_panics_unless_base_experience_positive
              trimSpaceASCII digitUnmarshal (serve ([Byte.x37], None)) 5 3
              "pikachu" freshWorld (Slice [Byte.x37]) _ _ _ _)) _).
    + vm_compute. reflexivity.
    + reflexivity.
    + cbn. lia.
Defined.

End Main.

(** ** More on the sweep *)

Module Sweep.
Import GoTime Pokecache.

(** The inner loop of [reapLoop] when the clock moves while it runs: each
    entry is tested against the reading [time.Since] takes at its own
    visit.  A visit pairs that reading with the entry met. *)
Definition reapRangeClock (interval : Z)
    (visits : list (Z * (string * cacheEntry)))
    (m : gmap string cacheEntry) : gmap string cacheEntry :=
  foldl (fun m v => reapEntry interval v.1 m v.2) m visits.

Lemma reapRangeClock_const interval now order m :
  reapRangeClock interval ((fun ke => (now, ke)) <$> order) m
  = reapRange interval now order m.
Proof.
  unfold reapRangeClock, reapRange. revert m.
  induction order as [|ke order IH]; intros m; [reflexivity|].
  cbn [fmap list_fmap foldl fst snd]. apply IH.
Qed.

Lemma reapRangeClock_notin interval visits m k :
  k ∉ visits.*2.*1 -> reapRangeClock interval visits m !! k = m !! k.
Proof.
  unfold reapRangeClock. revert m.
  induction visits as [|[t [k0 e0]] visits IH]; intros m Hk;
    [reflexivity|].
  rewrite !fmap_cons, not_elem_of_cons in Hk. cbn [fst snd] in Hk.
  destruct Hk as [Hne Hk].
  cbn [foldl fst snd reapEntry]. rewrite IH by assumption.
  destruct (Since t (createdAt e0) >? interval); [|reflexivity].
  apply lookup_delete_ne. congruence.
Qed.

Lemma reapRangeClock_in interval visits m t k e :
  NoDup visits.*2.*1 -> (t, (k, e)) ∈ visits -> m !! k = Some e ->
  reapRangeClock interval visits m !! k =
    if expired interval t e then None else Some e.
Proof.
  revert m.
  induction visits as [|[t0 [k0 e0]] visits IH]; intros m Hnd Hin Hm.
  - by apply elem_of_nil in Hin.
  - rewrite !fmap_cons in Hnd. cbn [fst snd] in Hnd.
    apply NoDup_cons in Hnd as [Hk0 Hnd].
    unfold reapRangeClock. cbn [foldl fst snd reapEntry].
    fold (reapRangeClock interval visits
            (if Since t0 (createdAt e0) >? interval
             then delete k0 m else m)).
    apply elem_of_cons in Hin as [Heq|Hin].
    + injection Heq as <- <- <-.
      rewrite reapRangeClock_notin by assumption.
      unfold expired. destruct (Since t (createdAt e) >? interval).
      * apply lookup_delete_eq.
      * assumption.
    + assert (Hne : k0 <> k).
      { intros ->. apply Hk0. apply list_elem_of_fmap.
        exists (k, e). split; [reflexivity|].
        apply list_elem_of_fmap. exists (t, (k, e)). by split. }
      apply IH; [assumption|assumption|].
      destruct (Since t0 (createdAt e0) >? interval); [|assumption].
      by rewrite lookup_delete_ne.
Qed.


(** X2.  When the clock advances from [t0] to [t1] while a sweep runs, each
    entry being tested at some reading in between, every entry that was
    already older than the interval at [t0] is removed, every entry that is
    still not older than the interval at [t1] is kept as it was, and nothing
    is created or changed. *)
Theorem sweep_under_running_clock interval t0 t1 visits
    (m : gmap string cacheEntry) :
  monoReading t0 -> monoReading t1 ->
  (forall k e, m !! k = Some e -> monoReading (createdAt e)) ->
  visits.*2 ≡ₚ map_to_list m ->
  Forall (fun v => t0 <= v.1 <= t1) visits ->
  (forall k e, m !! k = Some e -> interval < age t0 e ->
     reapRangeClock interval visits m !! k = None)
  /\ (forall k e, m !! k = Some e -> age t1 e <= interval ->
        reapRangeClock interval visits m !! k = Some e)
  /\ reapRangeClock interval visits m ⊆ m.
Proof.
  intros Ht0 Ht1 Hst Hperm Hclock.
  assert (Hnd : NoDup visits.*2.*1).
  { rewrite Hperm. apply NoDup_fst_map_to_list. }
  assert (Hvisit : forall k e, m !! k = Some e ->
            exists t, (t, (k, e)) ∈ visits /\ t0 <= t <= t1).
  { intros k e Hk.
    assert (Hin : (k, e) ∈ visits.*2).
    { rewrite Hperm. by apply elem_of_map_to_list. }
    apply list_elem_of_fmap in Hin as [[t ke] [Heq Hin]].
    cbn in Heq. subst ke. exists t. split; [assumption|].
    rewrite Forall_forall in Hclock. exact (Hclock _ Hin). }
  assert (Hlk : forall k e, m !! k = Some e ->
            exists t, t0 <= t <= t1 /\
              reapRangeClock interval visits m !! k =
                if age t e >? interval then None else Some e).
  { intros k e Hk. destruct (Hvisit k e Hk) as (t & Hin & Ht).
    exists t. split; [assumption|].
    rewrite (reapRangeClock_in interval visits m t k e Hnd Hin Hk).
    rewrite expired_age; [reflexivity| |exact (Hst k e Hk)].
    unfold monoReading in *. lia. }
  split; [|split].
  - intros k e Hk Hage. destruct (Hlk k e Hk) as (t & Ht & ->).
    unfold age in *. destruct (Z.gtb_spec (t - createdAt e) interval);
      [reflexivity|lia].
  - intros k e Hk Hage. destruct (Hlk k e Hk) as (t & Ht & ->).
    unfold age in *. destruct (Z.gtb_spec (t - createdAt e) interval);
      [lia|reflexivity].
  - apply map_subseteq_spec. intros k e Hres.
    destruct (m !! k) as [e0|] eqn:Hk.
    + destruct (Hlk k e0 Hk) as (t & _ & Heq). rewrite Heq in Hres.
      destruct (age t e0 >? interval); [discriminate|assumption].
    + rewrite reapRangeClock_notin in Hres; [congruence|].
      intros Hin. apply list_elem_of_fmap in Hin as [[k' e'] [-> Hin]].
      rewrite Hperm in Hin. apply elem_of_map_to_list in Hin.
      cbn in Hk. congruence.
Qed.

(** X3.  Sweeps compose: a sweep at [t2] after a sweep at an earlier
    reading [t1] leaves the same cache as the sweep at [t2] alone; in
    particular sweeping twice at one reading is the same as sweeping once. *)
Theorem sweep_after_sweep interval t1 t2 p :
  monoReading t1 -> monoReading t2 -> t1 <= t2 -> stamped p ->
  reapTick interval t2 (reapTick interval t1 p) = reapTick interval t2 p.
Proof.
  intros H1 H2 Hle Hp.
  destruct (reapTick interval t2 (reapTick interval t1 p)) as [m21] eqn:E21.
  destruct (reapTick interval t2 p) as [m2] eqn:E2.
  f_equal. apply map_eq. intros k.
  change m21 with (cache {| cache := m21 |}).
  change m2 with (cache {| cache := m2 |}).
  rewrite <- E21, <- E2, !reapTick_lookup.
  destruct (cache p !! k) as [e|] eqn:Hk; [|reflexivity].
  pose proof (Hp k e Hk) as He.
  rewrite !expired_age by assumption. unfold age.
  destruct (Z.gtb_spec (t1 - createdAt e) interval) as [Hgt|Hle1].
  - destruct (Z.gtb_spec (t2 - createdAt e) interval); [reflexivity|lia].
  - rewrite expired_age by assumption. reflexivity.
Qed.

(** A cache with an old entry ["a"] and a recent entry ["b"]. *)
Definition twoEntries : Cache :=
  Add 7 "b" (Slice []) (Add 0 "a" Nil NewCache).

Lemma twoEntries_stamped : stamped twoEntries.
Proof.
  apply stamped_Add; [unfold monoReading; lia|].
  apply stamped_Add; [unfold monoReading; lia|].
  apply stamped_NewCache.
Qed.

Lemma twoEntries_list :
  map_to_list (cache twoEntries) ≡ₚ
    [("a", {| createdAt := 0; val := Nil |});
     ("b", {| createdAt := 7; val := Slice [] |})].
Proof.
  unfold twoEntries, Add, NewCache; cbn [cache].
  rewrite map_to_list_insert by (by rewrite lookup_insert_ne).
  rewrite map_to_list_insert by apply lookup_empty.
  rewrite map_to_list_empty. apply perm_swap.
Qed.


Lemma sweep_under_running_clock_witness :
  reapRangeClock 5
    [(10, ("a", {| createdAt := 0; val := Nil |}));
     (12, ("b", {| createdAt := 7; val := Slice [] |}))]
    (cache twoEntries) !! "a" = None
  /\ reapRangeClock 5
       [(10, ("a", {| createdAt := 0; val := Nil |}));
        (12, ("b", {| createdAt := 7; val := Slice [] |}))]
       (cache twoEntries) !! "b"
     = Some {| createdAt := 7; val := Slice [] |}.
Proof.
  assert (H10 : monoReading 10) by (unfold monoReading; lia).
  assert (H12 : monoReading 12) by (unfold monoReading; lia).
  assert (Hperm :
    [(10, ("a", {| createdAt := 0; val := Nil |}));
     (12, ("b", {| createdAt := 7; val := Slice [] |}))].*2
    ≡ₚ map_to_list (cache twoEntries)).
  { symmetry. apply twoEntries_list. }
  assert (Hclock : Forall (fun v : Z * (string * cacheEntry) =>
                             10 <= v.1 <= 12)
    [(10, ("a", {| createdAt := 0; val := Nil |}));
     (12, ("b", {| createdAt := 7; val := Slice [] |}))]).
  { repeat constructor; cbn; lia. }
  destruct (sweep_under_running_clock 5 10 12 _ (cache twoEntries)
              H10 H12 twoEntries_stamped Hperm Hclock)
    as (Hgone & Hkept & _).
  split.
  - apply (Hgone "a" {| createdAt := 0; val := Nil |}); [reflexivity|].
    unfold age; cbn. lia.
  - apply (Hkept "b" {| createdAt := 7; val := Slice [] |}); [reflexivity|].
    unfold age; cbn. lia.
Defined.

Lemma sweep_after_sweep_witness :
  reapTick 5 12 (reapTick 5 10 twoEntries) = reapTick 5 12 twoEntries.
Proof.
  apply sweep_after_sweep.
  - unfold monoReading; lia.
  - unfold monoReading; lia.
  - lia.
  - apply twoEntries_stamped.
Defined.

End Sweep.

(** ** The commands and the read-eval-print loop *)

Module Cli.
Import GoTime Pokecache Main.

Record Location : Type := mkLocation {
  Location_Name : string;
  Location_Url : string;
}.

Record LocationResponse : Type := mkLocationResponse {
  Count : Z;
  Response_Next : string;
  Response_Previous : string;
  Locations : list Location;
}.

Record Pokemon : Type := mkPokemon {
  Pokemon_Name : string;
  Pokemon_Url : string;
}.

Record PokemonEncounter : Type := mkPokemonEncounter {
  Encounter_Pokemon : Pokemon;
}.

Record LocationDetailsResponse : Type := mkLocationDetailsResponse {
  PokemonEncounters : list PokemonEncounter;
}.

(** What surrounds one command: the answers of the network, the clock
    reading and the random generator's draw. *)
Record Env : Type := mkEnv {
  net : string -> error + Response;
  now : Z;
  rnd : Z;
}.

(** How a command callback ends: it returns its [error], it panics, or it
    ends the program with [os.Exit] after a last, unterminated write. *)
Inductive status : Type :=
| Returned (err : option error)
| Panicked (msg : string)
| Exited (lastWords : string) (code : Z).

(** The run-time panic of [args[0]] on an empty [args]. *)
Definition indexOutOfRange : string :=
  "runtime error: index out of range [0] with length 0".

Definition setCfg (w : World) (c : config) : World :=
  {| cfg := c; pokeDex := pokeDex w; stdout := stdout w |}.

(** Printing a sequence of lines, one [fmt.Println] each. *)
Definition PrintAll (lines : list string) (w : World) : World :=
  foldl (fun w line => Println line w) w lines.

(** *** ASCII fast paths of the [strings] package *)

Definition isASCIIChar (a : Ascii.ascii) : bool :=
  (Ascii.N_of_ascii a <? 128)%N.

Fixpoint allb (f : Ascii.ascii -> bool) (s : string) : bool :=
  match s with
  | EmptyString => true
  | String a s' => f a && allb f s'
  end.

Definition isASCII (s : string) : bool := allb isASCIIChar s.

Definition isUpper (a : Ascii.ascii) : bool :=
  let n := Ascii.N_of_ascii a in ((65 <=? n) && (n <=? 90))%N.

(** ['A' <= c && c <= 'Z'] then [c += 'a' - 'A']. *)
Definition lowerChar (a : Ascii.ascii) : Ascii.ascii :=
  if isUpper a then Ascii.ascii_of_N (Ascii.N_of_ascii a + 32) else a.

(** [strings.ToLower] on ASCII text. *)
Fixpoint toLowerASCII (s : string) : string :=
  match s with
  | EmptyString => EmptyString
  | String a s' => String (lowerChar a) (toLowerASCII s')
  end.

(** The loop of [strings.Fields] on ASCII text; [field] is the part of the
    current field read so far ([s[fieldStart:i]]), empty while white space
    is being skipped. *)
Fixpoint fieldsFrom (field : string) (s : string) : list string :=
  match s with
  | EmptyString => if decide (field = "") then [] else [field]
  | String a s' =>
      if asciiSpace a then
        if decide (field = "") then fieldsFrom "" s'
        else field :: fieldsFrom "" s'
      else fieldsFrom (field +:+ String a "") s'
  end.

(** [strings.Fields] on ASCII text. *)
Definition fieldsASCII (s : string) : list string := fieldsFrom "" s.

(** The text with its white space removed. *)
Fixpoint squeeze (s : string) : string :=
  match s with
  | EmptyString => EmptyString
  | String a s' => if asciiSpace a then squeeze s' else String a (squeeze s')
  end.

Section Commands.

(** [strings.TrimSpace], [strings.ToLower], [strings.Fields]. *)
Variable TrimSpace : string -> string.
Variable ToLower : string -> string.
Variable Fields : string -> list string.

(** [json.Unmarshal] into a zero [PokemonType], [LocationResponse] and
    [LocationDetailsResponse]; the last two give the struct as the call
    leaves it together with the error. *)
Variable Unmarshal : Bytes -> error + PokemonType.
Variable UnmarshalLocations : Bytes -> LocationResponse * option error.
Variable UnmarshalDetails : Bytes -> LocationDetailsResponse * option error.

Definition cleanInput (text : string) : list string :=
  let text := TrimSpace text in
  let text := ToLower text in
  let words := Fields text in
  words.

(** [fmt.Print(" - ")] followed by [fmt.Println(k)] writes the one line
    [" - k"]; the keys come in the order of the map iteration. *)
Definition commandPokedex (env : Env) (args : list string) (w : World)
    : status * World :=
  let w := Println "Your Pokedex:" w in
  (Returned None,
   PrintAll ((fun k => " - " +:+ k) <$> (map_to_list (pokeDex w)).*1) w).

Definition commandCatch (env : Env) (args : list string) (w : World)
    : status * World :=
  match args with
  | [] => (Panicked indexOutOfRange, w)
  | toCatch :: _ =>
      let '(o, w) :=
        catchPokemon TrimSpace Unmarshal (net env) (now env) (rnd env)
          toCatch w in
      match o with
      | Return _ => (Returned None, w)
      | Panic msg => (Panicked msg, w)
      end
  end.

Definition commandExit (env : Env) (args : list string) (w : World)
    : status * World :=
  (Exited "Closing the Pokedex... Goodbye!" 0, w).

Definition commandHelp (env : Env) (args : list string) (w : World)
    : status * World :=
  let w := Println "Welcome to the Pokedex!" w in
  let w := Println "Usage:" w in
  let w := Println "help: Displays a help message" w in
  let w := Println "exit: Exit the Pokedex" w in
  (Returned None, w).

Definition fetchLocationDetails (env : Env) (url : string) (c : config)
    : (LocationDetailsResponse * option error) * config :=
  let response := {| PokemonEncounters := [] |} in
  let '((decodedData, err), c) :=
    fetchData TrimSpace (net env) (now env) url c in
  match err with
  | Some e => ((response, Some e), c)
  | None => (UnmarshalDetails decodedData, c)
  end.

Definition commandExplore (env : Env) (args : list string) (w : World)
    : status * World :=
  match args with
  | [] => (Panicked indexOutOfRange, w)
  | area :: _ =>
      let '((response, err), c) :=
        fetchLocationDetails env (Url (cfg w) +:+ "location-area/" +:+ area)
          (cfg w) in
      let w := setCfg w c in
      let pokemonEncounters := PokemonEncounters response in
      match err with
      | Some e => (Returned (Some e), w)
      | None =>
          (Returned None,
           PrintAll ((fun enc => Pokemon_Name (Encounter_Pokemon enc))
                       <$> pokemonEncounters) w)
      end
  end.

Definition fetchLocations (env : Env) (url : string) (c : config)
    : (LocationResponse * option error) * config :=
  let response :=
    {| Count := 0; Response_Next := ""; Response_Previous := "";
       Locations := [] |} in
  let '((decodedData, err), c) :=
    fetchData TrimSpace (net env) (now env) url c in
  match err with
  | Some e => ((response, Some e), c)
  | None => (UnmarshalLocations decodedData, c)
  end.

Definition commandMap (env : Env) (args : list string) (w : World)
    : status * World :=
  let mapUrl := Url (cfg w) +:+ "/location-area" in
  let mapUrl := if decide (Next (cfg w) <> "") then Next (cfg w)
                else mapUrl in
  let '((response, err), c) := fetchLocations env mapUrl (cfg w) in
  let w := setCfg w c in
  match err with
  | Some e => (Returned (Some e), w)
  | None =>
      let locations := Locations response in
      let c := {| Url := Url c; Next := Response_Next response;
                  Previous := Response_Previous response;
                  Cache := Cache c |} in
      let w := setCfg w c in
      (Returned None, PrintAll (Location_Name <$> locations) w)
  end.

Definition commandPrevMap (env : Env) (args : list string) (w : World)
    : status * World :=
  if decide (Previous (cfg w) = "") then
    (Returned None, Println "you're on the first page" w)
  else
    let mapUrl := Previous (cfg w) in
    let '((response, err), c) := fetchLocations env mapUrl (cfg w) in
    let w := setCfg w c in
    match err with
    | Some e => (Returned (Some e), w)
    | None =>
        let locations := Locations response in
        let c := {| Url := Url c; Next := Response_Next response;
                    Previous := Response_Previous response;
                    Cache := Cache c |} in
        let w := setCfg w c in
        (Returned None, PrintAll (Location_Name <$> locations) w)
    end.

Definition commandInspect (env : Env) (args : list string) (w : World)
    : status * World :=
  match args with
  | [] => (Panicked indexOutOfRange, w)
  | pokemonName :: _ =>
      match pokeDex w !! pokemonName with
      | None =>
          (Returned None, Println ("You haven't caught " +:+ pokemonName) w)
      | Some pokemon =>
          let w := Println ("Details of " +:+ pokemonName +:+ ":") w in
          let w := Println ("Height: " +:+ pretty (Height pokemon)) w in
          let w := Println ("Weight: " +:+ pretty (Weight pokemon)) w in
          let w := Println ("Base Experience: "
                            +:+ pretty (BaseExperience pokemon)) w in
          let w := Println "Types:" w in
          let w := PrintAll
            ((fun t => "- " +:+ Type_Name (TypeDetails_Type t)
                       +:+ " (Slot " +:+ pretty (Slot t) +:+ ")")
               <$> Types pokemon) w in
          let w := Println "Stats:" w in
          let w := PrintAll
            ((fun s => "- " +:+ Stat_Name (StatDetail_Stat s)
                       +:+ ": " +:+ pretty (BaseStat s))
               <$> Stats pokemon) w in
          (Returned None, w)
      end
  end.

Record cliCommand : Type := mkCliCommand {
  name : string;
  description : string;
  callback : Env -> list string -> World -> status * World;
}.

Definition commands : gmap string cliCommand :=
  list_to_map [
    ("exit", {| name := "exit"; description := "Exit the Pokedex";
                callback := commandExit |});
    ("help", {| name := "help"; description := "Display available commands";
                callback := commandHelp |});
    ("map", {| name := "map"; description := "Display next maps";
               callback := commandMap |});
    ("mapb", {| name := "map"; description := "Display previous maps";
                callback := commandPrevMap |});
    ("explore", {| name := "explore"; description := "Explore a location";
                   callback := commandExplore |});
    ("catch", {| name := "catch"; description := "Catch a pokemon";
                 callback := commandCatch |});
    ("inspect", {| name := "inspect";
                   description := "Inspect a caught pokemon";
                   callback := commandInspect |});
    ("pokedex", {| name := "pokedex"; description := "View your pokedex";
                   callback := commandPokedex |})
  ].

(** The body of the loop in [main] once the line [text] has been read:
    from [words := cleanInput(text)] to the end of the iteration.  The
    result [Returned None] stands for going on to the next iteration. *)
Definition evalLine (env : Env) (text : string) (w : World)
    : status * World :=
  let words := cleanInput text in
  match words with
  | [] => (Returned None, w)
  | command :: args =>
      match commands !! command with
      | Some cmd =>
          let '(st, w) := callback cmd env args w in
          match st with
          | Returned (Some err) => (Returned None, Println ("Error: " +:+ err) w)
          | _ => (st, w)
          end
      | None => (Returned None, Println ("Unknown command: " +:+ command) w)
      end
  end.

(** *** [fetchData] *)

(** [fetchData] by cases on the cache and on the network's answer. *)
Lemma fetchData_cases net0 now0 url c :
  fetchData TrimSpace net0 now0 url c =
    if decide (TrimSpace url = "") then
      ((Slice [], Some "Invalid input"), c)
    else
      match cache (Cache c) !! url with
      | Some e => ((val e, None), c)
      | None =>
          match net0 url with
          | inl err => ((Slice [], Some err), c)
          | inr res =>
              if negb (StatusCode res =? StatusOK) then
                ((Slice [], Some ("failed to fetch data: " +:+ Status res)),
                 c)
              else
                let c' :=
                  withCache c (Add now0 url (Slice (Body res).1) (Cache c)) in
                match (Body res).2 with
                | Some e => ((Slice [], Some e), c')
                | None => ((Slice (Body res).1, None), c')
                end
          end
      end.
Proof.
  unfold fetchData, Get, ReadAll.
  destruct (decide (TrimSpace url = "")); [reflexivity|].
  destruct (cache (Cache c) !! url) as [e|]; cbn [fst snd].
  - by rewrite withCache_same.
  - rewrite withCache_same. destruct (net0 url) as [err|res]; [reflexivity|].
    destruct (negb (StatusCode res =? StatusOK)); [reflexivity|].
    by destruct (Body res) as [body [e|]].
Qed.

(** The configuration after [fetchData]: untouched, or with one new cache
    entry under a URL that had none. *)
Lemma fetchData_config net0 now0 url c :
  let c' := (fetchData TrimSpace net0 now0 url c).2 in
  c' = c \/
  (cache (Cache c) !! url = None /\
   exists v, c' = withCache c (Add now0 url v (Cache c))).
Proof.
  intros c'. unfold c'. rewrite fetchData_cases.
  destruct (decide (TrimSpace url = "")); [by left|].
  destruct (cache (Cache c) !! url) as [e|] eqn:Hk; [by left|].
  destruct (net0 url) as [err|res]; [by left|].
  destruct (negb (StatusCode res =? StatusOK)); [by left|].
  right. split; [reflexivity|].
  exists (Slice (Body res).1). by destruct (Body res).2.
Qed.

Lemma fetchData_cursor net0 now0 url c :
  let c' := (fetchData TrimSpace net0 now0 url c).2 in
  Url c' = Url c /\ Next c' = Next c /\ Previous c' = Previous c.
Proof.
  intros c'. destruct (fetchData_config net0 now0 url c) as [H|[_ [v H]]];
    fold c' in H; rewrite H; auto.
Qed.

Lemma fetchData_local net0 net1 now0 url c :
  net0 url = net1 url ->
  fetchData TrimSpace net0 now0 url c = fetchData TrimSpace net1 now0 url c.
Proof. intros H. rewrite !fetchData_cases. by rewrite H. Qed.

(** X4.  The three ways [fetchData] fails without having read a body: a URL
    that is blank after trimming (tested before the cache is consulted), a
    request that fails, and an answer whose status is not 200.  Each returns
    an empty slice with the error (["Invalid input"], the transport error,
    or ["failed to fetch data: "] followed by the status line) and leaves
    the configuration and its cache exactly as they were. *)
Theorem fetchData_failures_leave_cache net0 now0 url c :
  (TrimSpace url = "" ->
     fetchData TrimSpace net0 now0 url c
       = ((Slice [], Some "Invalid input"), c))
  /\ (forall err,
        TrimSpace url <> "" -> cache (Cache c) !! url = None ->
        net0 url = inl err ->
        fetchData TrimSpace net0 now0 url c = ((Slice [], Some err), c))
  /\ (forall res,
        TrimSpace url <> "" -> cache (Cache c) !! url = None ->
        net0 url = inr res -> StatusCode res <> 200 ->
        fetchData TrimSpace net0 now0 url c
          = ((Slice [], Some ("failed to fetch data: " +:+ Status res)), c)).
Proof.
  rewrite fetchData_cases. split; [|split].
  - intros Hb. by destruct (decide (TrimSpace url = "")).
  - intros err Hb Hmiss Hnet.
    destruct (decide (TrimSpace url = "")); [contradiction|].
    by rewrite Hmiss, Hnet.
  - intros res Hb Hmiss Hnet Hst.
    destruct (decide (TrimSpace url = "")); [contradiction|].
    rewrite Hmiss, Hnet. unfold StatusOK.
    destruct (Z.eqb_spec (StatusCode res) 200); [contradiction|reflexivity].
Qed.

(** X5.  A URL that is in the cache is served from it: the answer is the
    cached value with no error, the configuration is unchanged (the entry
    keeps its old time stamp), and neither the network nor the clock has any
    influence on the result. *)
Theorem fetchData_hit_ignores_network net0 now0 net1 now1 url c e :
  TrimSpace url <> "" -> cache (Cache c) !! url = Some e ->
  fetchData TrimSpace net0 now0 url c = ((val e, None), c)
  /\ fetchData TrimSpace net1 now1 url c
     = fetchData TrimSpace net0 now0 url c.
Proof.
  intros Hb Hk. rewrite !fetchData_cases.
  destruct (decide (TrimSpace url = "")); [contradiction|].
  by rewrite Hk.
Qed.


(** X7.  What [fetchData] leaves alone, whatever happens: the base URL and
    the paging cursor of the configuration, every cache entry under another
    key, and an entry already present under the URL itself (a hit changes
    nothing, so a cached entry is never refreshed or overwritten by a
    fetch).  No entry is ever removed. *)
Theorem fetchData_frame net0 now0 url c :
  let c' := (fetchData TrimSpace net0 now0 url c).2 in
  Url c' = Url c /\ Next c' = Next c /\ Previous c' = Previous c
  /\ (forall k, k <> url -> cache (Cache c') !! k = cache (Cache c) !! k)
  /\ (forall e, cache (Cache c) !! url = Some e -> c' = c)
  /\ cache (Cache c) ⊆ cache (Cache c').
Proof.
  intros c'.
  pose proof (fetchData_config net0 now0 url c) as Hc'. fold c' in Hc'.
  destruct Hc' as [->|[Hmiss [v ->]]].
  - repeat split; auto.
  - cbn [withCache Url Next Previous Cache Add cache].
    repeat split.
    + intros k Hne. by rewrite lookup_insert_ne.
    + intros e He. congruence.
    + by apply insert_subseteq.
Qed.

(** X8.  Whatever [fetchData] returns without an error is what the cache
    holds under the URL when the call is over. *)
Theorem fetchData_returns_cached_value net0 now0 url c data c' :
  fetchData TrimSpace net0 now0 url c = ((data, None), c') ->
  exists e, cache (Cache c') !! url = Some e /\ val e = data.
Proof.
  rewrite fetchData_cases.
  destruct (decide (TrimSpace url = "")); [discriminate|].
  destruct (cache (Cache c) !! url) as [e|] eqn:Hk.
  { intros [= <- <-]. eauto. }
  destruct (net0 url) as [err|res]; [discriminate|].
  destruct (negb (StatusCode res =? StatusOK)); [discriminate|].
  destruct (Body res).2; [discriminate|].
  intros [= <- <-]. cbn [withCache Cache Add cache].
  rewrite lookup_insert_eq. eauto.
Qed.

(** *** [catchPokemon] and [commandCatch] *)

(** The throw is decided by [willGotCaught > baseExperience/2]. *)
Lemma catch_test n chance :
  0 < n -> 0 <= chance < n ->
  (n - chance >? n ÷ 2) = bool_decide (2 * chance < n).
Proof.
  intros Hn Hc. rewrite Z.quot_div_nonneg by lia.
  pose proof (Z.div_mod n 2 ltac:(lia)) as Hdm.
  pose proof (Z.mod_pos_bound n 2 ltac:(lia)) as Hm.
  destruct (Z.gtb_spec (n - chance) (n / 2)).
  - rewrite bool_decide_eq_true_2; [reflexivity|lia].
  - rewrite bool_decide_eq_false_2; [reflexivity|lia].
Qed.

(** X9.  The outcome of a throw.  Once the pokemon is fetched and decoded
    with a positive [base_experience] [n], the draw [chance], which lies in
    [[0, n)], decides: the pokemon is caught exactly when [2 * chance < n].
    When caught it is entered in the pokedex under the name typed and
    ["<name> was caught"] is printed; otherwise the pokedex is unchanged and
    ["<name> escaped"] is printed.  Either way the call returns no error. *)
Theorem catchPokemon_outcome net0 now0 rnd0 p w data c response :
  fetchData TrimSpace net0 now0 (Url (cfg w) +:+ "pokemon/" +:+ p) (cfg w)
    = ((data, None), c) ->
  Unmarshal data = inr response ->
  0 < BaseExperience response ->
  let chance := rnd0 mod BaseExperience response in
  let caught := bool_decide (2 * chance < BaseExperience response) in
  0 <= chance < BaseExperience response
  /\ catchPokemon TrimSpace Unmarshal net0 now0 rnd0 p w =
       (Return None,
        {| cfg := c;
           pokeDex := if caught then <[p := response]> (pokeDex w)
                      else pokeDex w;
           stdout := stdout w ++
             ["Throwing a Pokeball at " +:+ p +:+ "...";
              if caught then p +:+ " was caught" else p +:+ " escaped"] |}).
Proof.
  intros Hfetch Hdec Hn chance caught.
  assert (Hc : 0 <= chance < BaseExperience response)
    by (apply Z.mod_pos_bound; lia).
  split; [exact Hc|].
  unfold catchPokemon. cbn [Println cfg pokeDex stdout].
  rewrite Hfetch, Hdec. unfold IntN.
  destruct (Z.leb_spec (BaseExperience response) 0); [lia|].
  fold chance. rewrite (catch_test _ _ Hn Hc). fold caught.
  destruct caught; unfold Println; cbn [cfg pokeDex stdout];
    by rewrite <- app_assoc.
Qed.

(** X10.  A throw that cannot be decided.  When the fetch fails,
    [catchPokemon] prints ["failed to catch <error>"] and returns the
    error; when the payload does not decode, it prints the decoder's error
    and returns it.  In both cases the pokedex is left as it was. *)
Theorem catchPokemon_failure net0 now0 rnd0 p w data c e :
  (fetchData TrimSpace net0 now0 (Url (cfg w) +:+ "pokemon/" +:+ p) (cfg w)
     = ((data, Some e), c) ->
   catchPokemon TrimSpace Unmarshal net0 now0 rnd0 p w =
     (Return (Some e),
      {| cfg := c; pokeDex := pokeDex w;
         stdout := stdout w ++
           ["Throwing a Pokeball at " +:+ p +:+ "...";
            "failed to catch " +:+ e] |}))
  /\ (fetchData TrimSpace net0 now0 (Url (cfg w) +:+ "pokemon/" +:+ p)
        (cfg w) = ((data, None), c) ->
      Unmarshal data = inl e ->
      catchPokemon TrimSpace Unmarshal net0 now0 rnd0 p w =
        (Return (Some e),
         {| cfg := c; pokeDex := pokeDex w;
            stdout := stdout w ++
              ["Throwing a Pokeball at " +:+ p +:+ "..."; e] |})).
Proof.
  split.
  - intros Hfetch. unfold catchPokemon. cbn [Println cfg pokeDex stdout].
    rewrite Hfetch. unfold Println; cbn [cfg pokeDex stdout].
    by rewrite <- app_assoc.
  - intros Hfetch Hdec. unfold catchPokemon.
    cbn [Println cfg pokeDex stdout].
    rewrite Hfetch, Hdec. unfold Println; cbn [cfg pokeDex stdout].
    by rewrite <- app_assoc.
Qed.

(** X11.  What a throw never does: it never removes a pokemon from the
    pokedex, never touches the entry of another name, never moves the
    paging cursor or the base URL, and never erases what was printed
    before. *)
Theorem catchPokemon_frame net0 now0 rnd0 p w :
  let w' := (catchPokemon TrimSpace Unmarshal net0 now0 rnd0 p w).2 in
  (forall k, k <> p -> pokeDex w' !! k = pokeDex w !! k)
  /\ (forall k, is_Some (pokeDex w !! k) -> is_Some (pokeDex w' !! k))
  /\ Url (cfg w') = Url (cfg w) /\ Next (cfg w') = Next (cfg w)
  /\ Previous (cfg w') = Previous (cfg w)
  /\ stdout w `prefix_of` stdout w'.
Proof.
  intros w'.
  pose proof (fetchData_cursor net0 now0
                (Url (cfg w) +:+ "pokemon/" +:+ p) (cfg w))
    as (HU & HN & HP).
  assert (Hw' : exists lines,
            cfg w' = (fetchData TrimSpace net0 now0
                        (Url (cfg w) +:+ "pokemon/" +:+ p) (cfg w)).2
            /\ stdout w' = stdout w ++ lines
            /\ (pokeDex w' = pokeDex w
                \/ exists r, pokeDex w' = <[p := r]> (pokeDex w))).
  { unfold w', catchPokemon. cbn [Println cfg pokeDex stdout].
    destruct (fetchData TrimSpace net0 now0 _ (cfg w)) as [[data [e|]] c].
    { eexists. cbn. rewrite <- app_assoc. eauto. }
    destruct (Unmarshal data) as [e|response].
    { eexists. cbn. rewrite <- app_assoc. eauto. }
    destruct (IntN rnd0 (BaseExperience response)) as [chance|].
    2:{ eexists. cbn. eauto. }
    destruct (BaseExperience response - chance
                >? BaseExperience response ÷ 2).
    - eexists. cbn. rewrite <- app_assoc. eauto.
    - eexists. cbn. rewrite <- app_assoc. eauto. }
  destruct Hw' as (lines & Hcfg & Hout & Hdex).
  rewrite Hcfg, Hout.
  split; [|split; [|split; [|split; [|split]]]]; try assumption.
  - intros k Hne. destruct Hdex as [->|[r ->]]; [reflexivity|].
    by rewrite lookup_insert_ne.
  - intros k Hk. destruct Hdex as [->|[r ->]]; [assumption|].
    destruct (decide (p = k)) as [->|Hne].
    + rewrite lookup_insert_eq. eauto.
    + by rewrite lookup_insert_ne.
  - by apply prefix_app_r.
Qed.

(** X12.  [commandCatch] drops the error of [catchPokemon]: when the throw
    fails with an error the command still returns [nil] (so the loop prints
    no ["Error:"] line for it), and the command never returns an error at
    all.  Called with no pokemon name it panics on [args[0]], before
    anything is printed or fetched. *)
Theorem commandCatch_swallows_errors env args w :
  (args = [] -> commandCatch env args w = (Panicked indexOutOfRange, w))
  /\ (forall p rest oerr w',
        args = p :: rest ->
        catchPokemon TrimSpace Unmarshal (net env) (now env) (rnd env) p w
          = (Return oerr, w') ->
        commandCatch env args w = (Returned None, w'))
  /\ ((commandCatch env args w).1 = Returned None
      \/ exists msg, (commandCatch env args w).1 = Panicked msg).
Proof.
  split; [|split].
  - intros ->. reflexivity.
  - intros p rest oerr w' -> Hc. unfold commandCatch. by rewrite Hc.
  - unfold commandCatch. destruct args as [|p rest]; [right; eauto|].
    destruct (catchPokemon _ _ _ _ _ p w) as [[oerr|msg] w'];
      [left|right]; cbn; eauto.
Qed.

(** *** Listing pages of locations *)

Lemma PrintAll_eq lines w :
  PrintAll lines w =
    {| cfg := cfg w; pokeDex := pokeDex w; stdout := stdout w ++ lines |}.
Proof.
  unfold PrintAll. revert w.
  induction lines as [|line lines IH]; intros w; cbn [foldl].
  - rewrite app_nil_r. by destruct w.
  - rewrite IH. unfold Println; cbn [cfg pokeDex stdout].
    by rewrite <- app_assoc.
Qed.

(** The URL [commandMap] asks for. *)
Definition mapTarget (c : config) : string :=
  if decide (Next c <> "") then Next c else Url c +:+ "/location-area".

(** What both paging commands do with the page at [mapUrl]. *)
Definition showPage (env : Env) (mapUrl : string) (w : World)
    : status * World :=
  let r := fetchData TrimSpace (net env) (now env) mapUrl (cfg w) in
  match r.1.2 with
  | Some e => (Returned (Some e), setCfg w r.2)
  | None =>
      let page := UnmarshalLocations r.1.1 in
      match page.2 with
      | Some e => (Returned (Some e), setCfg w r.2)
      | None =>
          (Returned None,
           {| cfg := {| Url := Url r.2; Next := Response_Next page.1;
                        Previous := Response_Previous page.1;
                        Cache := Cache r.2 |};
              pokeDex := pokeDex w;
              stdout := stdout w ++ (Location_Name <$> Locations page.1) |})
      end
  end.

Lemma page_tail env mapUrl w :
  (let '((response, err), c) := fetchLocations env mapUrl (cfg w) in
   let w := setCfg w c in
   match err with
   | Some e => (Returned (Some e), w)
   | None =>
       let locations := Locations response in
       let c := {| Url := Url c; Next := Response_Next response;
                   Previous := Response_Previous response;
                   Cache := Cache c |} in
       let w := setCfg w c in
       (Returned None, PrintAll (Location_Name <$> locations) w)
   end) = showPage env mapUrl w.
Proof.
  unfold fetchLocations, showPage.
  destruct (fetchData TrimSpace (net env) (now env) mapUrl (cfg w))
    as [[data [e|]] c]; cbn [fst snd]; [reflexivity|].
  destruct (UnmarshalLocations data) as [response [e|]]; cbn [fst snd];
    [reflexivity|].
  by rewrite PrintAll_eq.
Qed.

Lemma commandMap_showPage env args w :
  commandMap env args w = showPage env (mapTarget (cfg w)) w.
Proof. unfold commandMap. apply page_tail. Qed.

Lemma commandPrevMap_showPage env args w :
  commandPrevMap env args w =
    if decide (Previous (cfg w) = "") then
      (Returned None, Println "you're on the first page" w)
    else showPage env (Previous (cfg w)) w.
Proof.
  unfold commandPrevMap.
  destruct (decide (Previous (cfg w) = "")); [reflexivity|].
  apply page_tail.
Qed.

Lemma showPage_error env mapUrl w e w' :
  showPage env mapUrl w = (Returned (Some e), w') ->
  stdout w' = stdout w /\ pokeDex w' = pokeDex w
  /\ Url (cfg w') = Url (cfg w) /\ Next (cfg w') = Next (cfg w)
  /\ Previous (cfg w') = Previous (cfg w).
Proof.
  unfold showPage.
  pose proof (fetchData_cursor (net env) (now env) mapUrl (cfg w)) as HC.
  cbv zeta in HC.
  destruct (fetchData TrimSpace (net env) (now env) mapUrl (cfg w))
    as [[data [e0|]] c]; cbn [fst snd] in HC |- *.
  { intros [= <- <-]. destruct HC as (? & ? & ?). cbn. auto. }
  destruct (UnmarshalLocations data) as [response [e0|]]; cbn [fst snd].
  { intros [= <- <-]. destruct HC as (? & ? & ?). cbn. auto. }
  discriminate.
Qed.

(** X13.  A page that arrives is shown and becomes the cursor.  When the
    page [commandMap] asks for (the cursor's next, or
    [<base>/location-area] when the cursor has none) is fetched and decoded
    without error, the command prints the names of its locations in their
    order, sets the cursor to the page's own [next] and [previous], and
    returns no error; [commandPrevMap] does the same with the page at the
    cursor's previous.  The pokedex is not touched. *)
Theorem paging_shows_page_and_moves_cursor env args w mapUrl data c page :
  fetchData TrimSpace (net env) (now env) mapUrl (cfg w)
    = ((data, None), c) ->
  UnmarshalLocations data = (page, None) ->
  let shown :=
    (Returned None,
     {| cfg := {| Url := Url c; Next := Response_Next page;
                  Previous := Response_Previous page; Cache := Cache c |};
        pokeDex := pokeDex w;
        stdout := stdout w ++ (Location_Name <$> Locations page) |}) in
  (mapUrl = mapTarget (cfg w) -> commandMap env args w = shown)
  /\ (Previous (cfg w) <> "" -> mapUrl = Previous (cfg w) ->
      commandPrevMap env args w = shown).
Proof.
  intros Hfetch Hdec shown.
  assert (Hshow : showPage env mapUrl w = shown).
  { unfold showPage. rewrite Hfetch. cbn [fst snd]. by rewrite Hdec. }
  split.
  - intros ->. by rewrite commandMap_showPage.
  - intros Hp ->. rewrite commandPrevMap_showPage.
    by destruct (decide (Previous (cfg w) = "")).
Qed.

(** X14.  A paging command that returns an error has printed nothing and
    has left the cursor where it was: the base URL, [Next], [Previous] and
    the pokedex are as before, so the command can simply be repeated. *)
Theorem paging_error_keeps_cursor env args w e w' :
  commandMap env args w = (Returned (Some e), w')
  \/ commandPrevMap env args w = (Returned (Some e), w') ->
  stdout w' = stdout w /\ pokeDex w' = pokeDex w
  /\ Url (cfg w') = Url (cfg w) /\ Next (cfg w') = Next (cfg w)
  /\ Previous (cfg w') = Previous (cfg w).
Proof.
  intros [H|H].
  - rewrite commandMap_showPage in H. by apply showPage_error in H.
  - rewrite commandPrevMap_showPage in H.
    destruct (decide (Previous (cfg w) = "")); [discriminate|].
    by apply showPage_error in H.
Qed.

(** X15.  Which page is asked for.  [commandMap] ignores its arguments and
    consults the network at one URL only: the cursor's [Next], or
    [<base>/location-area] when [Next] is empty, which is the case at the
    start and again after a page without successor, where the listing
    starts over.  [commandPrevMap] consults it only at the cursor's
    [Previous]; when that is empty it fetches nothing, prints
    ["you're on the first page"] and changes nothing else. *)
Theorem paging_requests env env' args args' w :
  now env' = now env ->
  (net env' (mapTarget (cfg w)) = net env (mapTarget (cfg w)) ->
     commandMap env' args' w = commandMap env args w)
  /\ (Next (cfg w) = "" ->
      mapTarget (cfg w) = Url (cfg w) +:+ "/location-area")
  /\ (Previous (cfg w) <> "" ->
      net env' (Previous (cfg w)) = net env (Previous (cfg w)) ->
      commandPrevMap env' args' w = commandPrevMap env args w)
  /\ (Previous (cfg w) = "" ->
      commandPrevMap env' args' w
        = (Returned None,
           {| cfg := cfg w; pokeDex := pokeDex w;
              stdout := stdout w ++ ["you're on the first page"] |})).
Proof.
  intros Hnow.
  assert (Hlocal : forall u, net env' u = net env u ->
            showPage env' u w = showPage env u w).
  { intros u Hu. unfold showPage.
    by rewrite Hnow, (fetchData_local (net env') (net env) _ u _ Hu). }
  split; [|split; [|split]].
  - intros Hnet. rewrite !commandMap_showPage. by apply Hlocal.
  - intros HN. unfold mapTarget.
    destruct (decide (Next (cfg w) <> "")); [contradiction|reflexivity].
  - intros Hp Hnet. rewrite !commandPrevMap_showPage.
    destruct (decide (Previous (cfg w) = "")); [contradiction|].
    by apply Hlocal.
  - intros Hp. rewrite commandPrevMap_showPage.
    destruct (decide (Previous (cfg w) = "")); [reflexivity|contradiction].
Qed.

(** *** [commandExplore], [commandInspect], [commandPokedex] *)

(** X16.  [commandExplore]: with no area name it panics on [args[0]]
    before doing anything; when the area
    [<base>location-area/<area>] is fetched and decoded it prints the name
    of every pokemon encountered there, in the order of the answer, and
    returns no error; when the fetch or the decoding fails it returns that
    error and prints nothing.  The pokedex and the paging cursor are never
    touched. *)
Theorem commandExplore_behaviour env args w :
  (args = [] -> commandExplore env args w = (Panicked indexOutOfRange, w))
  /\ (forall area rest,
        args = area :: rest ->
        let r := fetchData TrimSpace (net env) (now env)
                   (Url (cfg w) +:+ "location-area/" +:+ area) (cfg w) in
        (forall e, r.1.2 = Some e ->
           commandExplore env args w = (Returned (Some e), setCfg w r.2))
        /\ (forall e, r.1.2 = None -> (UnmarshalDetails r.1.1).2 = Some e ->
              commandExplore env args w = (Returned (Some e), setCfg w r.2))
        /\ (r.1.2 = None -> (UnmarshalDetails r.1.1).2 = None ->
            commandExplore env args w =
              (Returned None,
               {| cfg := r.2; pokeDex := pokeDex w;
                  stdout := stdout w ++
                    ((fun enc => Pokemon_Name (Encounter_Pokemon enc))
                       <$> PokemonEncounters (UnmarshalDetails r.1.1).1) |})))
  /\ (let w' := (commandExplore env args w).2 in
      pokeDex w' = pokeDex w /\ Next (cfg w') = Next (cfg w)
      /\ Previous (cfg w') = Previous (cfg w) /\ Url (cfg w') = Url (cfg w)).
Proof.
  split; [by intros ->|]. split.
  - intros area rest -> r. unfold commandExplore, fetchLocationDetails.
    fold r. destruct r as [[data [e0|]] c]; cbn [fst snd].
    + split; [by intros e [= ->]|]. split; [discriminate|discriminate].
    + destruct (UnmarshalDetails data) as [response [e0|]]; cbn [fst snd].
      * split; [discriminate|]. split; [by intros e _ [= ->]|discriminate].
      * split; [discriminate|]. split; [discriminate|].
        intros _ _. by rewrite PrintAll_eq.
  - destruct args as [|area rest]; [cbn; auto|].
    unfold commandExplore, fetchLocationDetails.
    pose proof (fetchData_cursor (net env) (now env)
                  (Url (cfg w) +:+ "location-area/" +:+ area) (cfg w)) as HC.
    cbv zeta in HC.
    destruct (fetchData TrimSpace (net env) (now env) _ (cfg w))
      as [[data [e0|]] c]; cbn [fst snd] in HC |- *;
      destruct HC as (? & ? & ?); [cbn; auto|].
    destruct (UnmarshalDetails data) as [response [e0|]]; [cbn; auto|].
    rewrite PrintAll_eq. cbn. auto.
Qed.

(** The lines [commandInspect] prints for a pokemon of the pokedex. *)
Definition detailLines (pokemonName : string) (pokemon : PokemonType)
    : list string :=
  ["Details of " +:+ pokemonName +:+ ":";
   "Height: " +:+ pretty (Height pokemon);
   "Weight: " +:+ pretty (Weight pokemon);
   "Base Experience: " +:+ pretty (BaseExperience pokemon);
   "Types:"]
  ++ ((fun t => "- " +:+ Type_Name (TypeDetails_Type t)
                +:+ " (Slot " +:+ pretty (Slot t) +:+ ")")
        <$> Types pokemon)
  ++ ["Stats:"]
  ++ ((fun s => "- " +:+ Stat_Name (StatDetail_Stat s)
                +:+ ": " +:+ pretty (BaseStat s))
        <$> Stats pokemon).

Lemma commandInspect_cases env args w :
  commandInspect env args w =
    match args with
    | [] => (Panicked indexOutOfRange, w)
    | pokemonName :: _ =>
        (Returned None,
         {| cfg := cfg w; pokeDex := pokeDex w;
            stdout := stdout w ++
              match pokeDex w !! pokemonName with
              | None => ["You haven't caught " +:+ pokemonName]
              | Some pokemon => detailLines pokemonName pokemon
              end |})
    end.
Proof.
  unfold commandInspect. destruct args as [|p rest]; [reflexivity|].
  destruct (pokeDex w !! p) as [pokemon|]; [|reflexivity].
  rewrite !PrintAll_eq. unfold Println, detailLines.
  cbn [cfg pokeDex stdout]. f_equal. f_equal.
  rewrite <- !app_assoc. reflexivity.
Qed.

(** X17.  [commandInspect]: with no name it panics on [args[0]]; for a name
    that is not in the pokedex it prints the single line
    ["You haven't caught <name>"]; for a caught pokemon it prints the
    header, height, weight and base experience in decimal, then one line per
    type and one line per stat, in their order ([6 + #types + #stats]
    lines).  It returns no error and changes neither the pokedex nor the
    configuration. *)
Theorem commandInspect_behaviour env args w :
  (args = [] -> commandInspect env args w = (Panicked indexOutOfRange, w))
  /\ (forall p rest,
        args = p :: rest -> pokeDex w !! p = None ->
        commandInspect env args w
          = (Returned None, Println ("You haven't caught " +:+ p) w))
  /\ (forall p rest pokemon,
        args = p :: rest -> pokeDex w !! p = Some pokemon ->
        commandInspect env args w
          = (Returned None,
             {| cfg := cfg w; pokeDex := pokeDex w;
                stdout := stdout w ++ detailLines p pokemon |})
        /\ length (detailLines p pokemon)
           = (6 + length (Types pokemon) + length (Stats pokemon))%nat)
  /\ (cfg (commandInspect env args w).2 = cfg w
      /\ pokeDex (commandInspect env args w).2 = pokeDex w).
Proof.
  rewrite commandInspect_cases.
  split; [by intros ->|]. split; [|split].
  - intros p rest -> Hp. by rewrite Hp.
  - intros p rest pokemon -> Hp. rewrite Hp. split; [reflexivity|].
    unfold detailLines. rewrite !length_app, !length_fmap. cbn. lia.
  - destruct args; cbn; auto.
Qed.

(** X18.  A pokemon that was caught can be inspected.  After a throw that
    succeeds ([2 * chance < base_experience]), [commandInspect] on the same
    name prints the details of the pokemon just decoded; after a throw that
    fails to catch a pokemon not yet in the pokedex, it prints
    ["You haven't caught <name>"]. *)
Theorem inspect_after_catch env env' p rest w data c response :
  fetchData TrimSpace (net env) (now env)
    (Url (cfg w) +:+ "pokemon/" +:+ p) (cfg w) = ((data, None), c) ->
  Unmarshal data = inr response ->
  0 < BaseExperience response ->
  let w' := (commandCatch env [p] w).2 in
  (2 * (rnd env mod BaseExperience response) < BaseExperience response ->
     commandInspect env' (p :: rest) w'
       = (Returned None,
          {| cfg := cfg w'; pokeDex := pokeDex w';
             stdout := stdout w' ++ detailLines p response |}))
  /\ (BaseExperience response <= 2 * (rnd env mod BaseExperience response) ->
      pokeDex w !! p = None ->
      commandInspect env' (p :: rest) w'
        = (Returned None, Println ("You haven't caught " +:+ p) w')).
Proof.
  intros Hfetch Hdec Hn w'.
  assert (Hc : 0 <= rnd env mod BaseExperience response
               < BaseExperience response) by (apply Z.mod_pos_bound; lia).
  assert (Hdex : pokeDex w' =
            if bool_decide (2 * (rnd env mod BaseExperience response)
                            < BaseExperience response)
            then <[p := response]> (pokeDex w) else pokeDex w).
  { unfold w', commandCatch, catchPokemon.
    cbn [Println cfg pokeDex stdout].
    rewrite Hfetch, Hdec. unfold IntN.
    destruct (Z.leb_spec (BaseExperience response) 0); [lia|].
    rewrite (catch_test _ _ Hn Hc).
    by destruct (bool_decide _). }
  rewrite commandInspect_cases. split.
  - intros Hlt. rewrite bool_decide_eq_true_2 in Hdex by assumption.
    assert (pokeDex w' !! p = Some response) as ->; [|reflexivity].
    rewrite Hdex. apply lookup_insert_eq.
  - intros Hge Hp. rewrite bool_decide_eq_false_2 in Hdex by lia.
    assert (pokeDex w' !! p = None) as ->; [|reflexivity].
    by rewrite Hdex.
Qed.

Lemma NoDup_fmap_prefix (l : list string) :
  NoDup l -> NoDup ((fun k => " - " +:+ k) <$> l).
Proof. apply NoDup_fmap_2. intros x y H. by simplify_eq/=. Qed.

(** X19.  [commandPokedex] prints the header ["Your Pokedex:"] and then
    one line [" - <name>"] for each pokemon of the pokedex: as many lines
    as there are entries, none twice, and a name is listed exactly when it
    has been caught.  (The order of the lines is that of the map iteration
    and is not specified.)  It returns no error and changes nothing else. *)
Theorem commandPokedex_lists_every_catch env args w :
  exists lines,
    commandPokedex env args w =
      (Returned None,
       {| cfg := cfg w; pokeDex := pokeDex w;
          stdout := stdout w ++ "Your Pokedex:" :: lines |})
    /\ length lines = size (pokeDex w)
    /\ NoDup lines
    /\ (forall k, " - " +:+ k ∈ lines <-> is_Some (pokeDex w !! k)).
Proof.
  exists ((fun k => " - " +:+ k) <$> (map_to_list (pokeDex w)).*1).
  split; [|split; [|split]].
  - unfold commandPokedex. rewrite PrintAll_eq.
    unfold Println; cbn [cfg pokeDex stdout].
    by rewrite <- app_assoc.
  - by rewrite !length_fmap, length_map_to_list.
  - apply NoDup_fmap_prefix, NoDup_fst_map_to_list.
  - intros k. rewrite list_elem_of_fmap. split.
    + intros (k' & Heq & Hin). simplify_eq/=.
      apply list_elem_of_fmap in Hin as [[k'' x] [-> Hin]].
      apply elem_of_map_to_list in Hin. cbn. eauto.
    + intros [x Hx]. exists k. split; [reflexivity|].
      apply list_elem_of_fmap. exists (k, x). split; [reflexivity|].
      by apply elem_of_map_to_list.
Qed.

(** *** The loop body *)

(** The words that name a command. *)
Definition commandWords : list string :=
  ["exit"; "help"; "map"; "mapb"; "explore"; "catch"; "inspect"; "pokedex"].

Lemma commands_unknown command :
  command ∉ commandWords -> commands !! command = None.
Proof.
  intros H. unfold commands. apply not_elem_of_list_to_map_1. exact H.
Qed.

Lemma commands_known command :
  command ∈ commandWords -> is_Some (commands !! command).
Proof.
  intros H. unfold commandWords in H.
  repeat (apply elem_of_cons in H as [->|H]; [by eexists|]).
  by apply elem_of_nil in H.
Qed.

Lemma commands_needing_argument command cmd env w :
  command ∈ ["explore"; "catch"; "inspect"] ->
  commands !! command = Some cmd ->
  callback cmd env [] w = (Panicked indexOutOfRange, w).
Proof.
  intros H.
  repeat (apply elem_of_cons in H as [->|H];
          [by intros [= <-]|]).
  by apply elem_of_nil in H.
Qed.

(** X20.  A line that names no command.  When the first word of the line
    is not one of the eight command words, the loop prints
    ["Unknown command: <word>"] and goes on; nothing is fetched and neither
    the pokedex nor the configuration changes.  The words are compared as
    [cleanInput] returns them. *)
Theorem evalLine_unknown_command env text w command args :
  cleanInput text = command :: args ->
  command ∉ commandWords ->
  evalLine env text w
    = (Returned None,
       {| cfg := cfg w; pokeDex := pokeDex w;
          stdout := stdout w ++ ["Unknown command: " +:+ command] |}).
Proof.
  intros Hwords Hunknown. unfold evalLine. rewrite Hwords.
  by rewrite (commands_unknown command Hunknown).
Qed.

(** X21.  [explore], [catch] and [inspect] typed without an argument crash
    the program: the callback indexes [args[0]] of an empty argument list,
    and the loop does not recover from the panic.  Nothing has been printed
    or changed at that point. *)
Theorem evalLine_missing_argument_panics env text w command :
  cleanInput text = [command] ->
  command ∈ ["explore"; "catch"; "inspect"] ->
  evalLine env text w = (Panicked indexOutOfRange, w).
Proof.
  intros Hwords Hcmd. unfold evalLine. rewrite Hwords.
  assert (Hknown : command ∈ commandWords).
  { pose proof Hcmd as Hin. unfold commandWords.
    repeat (apply elem_of_cons in Hin as [->|Hin];
            [repeat first [apply list_elem_of_here
                          |apply list_elem_of_further]|]).
    by apply elem_of_nil in Hin. }
  destruct (commands_known command Hknown) as [cmd Hlk].
  rewrite Hlk.
  by rewrite (commands_needing_argument command cmd env w Hcmd Hlk).
Qed.

(** X22.  Errors do not end the loop.  When the callback of the command
    returns an error, the iteration prints ["Error: <error>"] after what
    the callback printed and goes on; an iteration never ends with an error
    of its own: it goes on, panics, or exits. *)
Theorem evalLine_reports_errors env text w :
  (forall command args cmd e w',
     cleanInput text = command :: args ->
     commands !! command = Some cmd ->
     callback cmd env args w = (Returned (Some e), w') ->
     evalLine env text w
       = (Returned None,
          {| cfg := cfg w'; pokeDex := pokeDex w';
             stdout := stdout w' ++ ["Error: " +:+ e] |}))
  /\ ((evalLine env text w).1 = Returned None
      \/ (exists msg, (evalLine env text w).1 = Panicked msg)
      \/ (exists lastWords code,
            (evalLine env text w).1 = Exited lastWords code)).
Proof.
  split.
  - intros command args cmd e w' Hwords Hlk Hcall.
    unfold evalLine. by rewrite Hwords, Hlk, Hcall.
  - unfold evalLine. destruct (cleanInput text) as [|command args];
      [by left|].
    destruct (commands !! command) as [cmd|]; [|by left].
    destruct (callback cmd env args w) as [[[e|]|msg|lastWords code] w'];
      cbn; eauto.
Qed.

End Commands.

(** *** [cleanInput] on ASCII text *)

(** [cleanInput] with the ASCII fast paths of the three [strings]
    functions it calls. *)
Definition cleanInputASCII : string -> list string :=
  cleanInput trimSpaceASCII toLowerASCII fieldsASCII.

Definition isWord (w : string) : Prop :=
  w <> "" /\ allb (fun a => negb (asciiSpace a)) w = true
  /\ allb (fun a => negb (isUpper a)) w = true.

Lemma sapp_cons a s t : String a s +:+ t = String a (s +:+ t).
Proof. reflexivity. Qed.

Lemma sapp_nil_l s : "" +:+ s = s.
Proof. reflexivity. Qed.

Lemma sapp_nil_r s : s +:+ "" = s.
Proof. induction s as [|a s IH]; [reflexivity|]. by rewrite sapp_cons, IH. Qed.

Lemma sapp_assoc s t u : (s +:+ t) +:+ u = s +:+ (t +:+ u).
Proof.
  induction s as [|a s IH]; [reflexivity|]. by rewrite !sapp_cons, IH.
Qed.

Lemma sapp_eq_nil s t : s +:+ t = "" -> s = "" /\ t = "".
Proof. destruct s; [by intros <-|discriminate]. Qed.

Lemma allb_app f s t : allb f (s +:+ t) = allb f s && allb f t.
Proof.
  induction s as [|a s IH]; [reflexivity|].
  rewrite sapp_cons. cbn [allb]. by rewrite IH, andb_assoc.
Qed.

Lemma lowerChar_space a : asciiSpace (lowerChar a) = asciiSpace a.
Proof. by destruct a as [[] [] [] [] [] [] [] []]. Qed.

Lemma lowerChar_not_upper a : isUpper (lowerChar a) = false.
Proof. by destruct a as [[] [] [] [] [] [] [] []]. Qed.

Lemma toLowerASCII_not_upper s :
  allb (fun a => negb (isUpper a)) (toLowerASCII s) = true.
Proof.
  induction s as [|a s IH]; [reflexivity|].
  cbn [toLowerASCII allb]. by rewrite lowerChar_not_upper, IH.
Qed.

Lemma fieldsFrom_words (Q : Ascii.ascii -> bool) field s :
  allb (fun a => negb (asciiSpace a)) field = true ->
  allb Q field = true -> allb Q s = true ->
  Forall (fun w => w <> "" /\ allb (fun a => negb (asciiSpace a)) w = true
                   /\ allb Q w = true) (fieldsFrom field s).
Proof.
  revert field. induction s as [|a s IH]; intros field Hns HQ Hs;
    cbn [fieldsFrom].
  - destruct (decide (field = "")); [constructor|].
    by repeat constructor.
  - cbn [allb] in Hs. apply andb_true_iff in Hs as [Ha Hs].
    destruct (asciiSpace a) eqn:Hsp.
    + destruct (decide (field = "")); [by apply IH|].
      constructor; [done|]. by apply IH.
    + apply IH; [| |assumption].
      * rewrite allb_app. cbn [allb]. by rewrite Hns, Hsp.
      * rewrite allb_app. cbn [allb]. by rewrite HQ, Ha.
Qed.

Lemma fieldsFrom_concat field s :
  foldr String.append "" (fieldsFrom field s) = field +:+ squeeze s.
Proof.
  revert field. induction s as [|a s IH]; intros field;
    cbn [fieldsFrom squeeze].
  - destruct (decide (field = "")) as [->|]; [reflexivity|].
    cbn [foldr]. reflexivity.
  - destruct (asciiSpace a).
    + destruct (decide (field = "")) as [->|]; [apply IH|].
      cbn [foldr]. by rewrite IH.
    + rewrite IH, sapp_assoc. reflexivity.
Qed.

Lemma squeeze_trimLeft s : squeeze (trimLeft s) = squeeze s.
Proof.
  induction s as [|a s IH]; [reflexivity|].
  cbn [trimLeft squeeze]. destruct (asciiSpace a) eqn:Hsp; [assumption|].
  cbn [squeeze]. by rewrite Hsp.
Qed.

Lemma squeeze_rev_app s t :
  squeeze (String.rev_app s t) = String.rev_app (squeeze s) (squeeze t).
Proof.
  revert t. induction s as [|a s IH]; intros t; [reflexivity|].
  cbn [String.rev_app squeeze]. rewrite IH. cbn [squeeze].
  by destruct (asciiSpace a).
Qed.

Lemma rev_app_rev_app s t u :
  String.rev_app (String.rev_app s t) u = String.rev_app t (s +:+ u).
Proof.
  revert t. induction s as [|a s IH]; intros t; [reflexivity|].
  cbn [String.rev_app]. by rewrite IH.
Qed.

Lemma squeeze_trimSpaceASCII s : squeeze (trimSpaceASCII s) = squeeze s.
Proof.
  unfold trimSpaceASCII, String.rev.
  rewrite squeeze_rev_app, squeeze_trimLeft, squeeze_rev_app.
  rewrite squeeze_trimLeft. cbn [squeeze].
  rewrite rev_app_rev_app. cbn [String.rev_app]. apply sapp_nil_r.
Qed.

Lemma squeeze_toLowerASCII s :
  squeeze (toLowerASCII s) = toLowerASCII (squeeze s).
Proof.
  induction s as [|a s IH]; [reflexivity|].
  cbn [toLowerASCII squeeze]. rewrite lowerChar_space.
  destruct (asciiSpace a); [assumption|].
  cbn [toLowerASCII]. by rewrite IH.
Qed.

Lemma squeeze_nil_iff s : squeeze s = "" <-> allb asciiSpace s = true.
Proof.
  induction s as [|a s IH]; [done|].
  cbn [squeeze allb]. destruct (asciiSpace a); [exact IH|].
  split; discriminate.
Qed.

Lemma toLowerASCII_nil_iff s : toLowerASCII s = "" <-> s = "".
Proof. destruct s; split; (reflexivity || discriminate). Qed.

Lemma cleanInputASCII_concat text :
  foldr String.append "" (cleanInputASCII text)
  = squeeze (toLowerASCII text).
Proof.
  unfold cleanInputASCII, cleanInput, fieldsASCII.
  rewrite fieldsFrom_concat, sapp_nil_l.
  rewrite squeeze_toLowerASCII, squeeze_trimSpaceASCII.
  by rewrite squeeze_toLowerASCII.
Qed.

Lemma cleanInputASCII_isWord text : Forall isWord (cleanInputASCII text).
Proof.
  unfold cleanInputASCII, cleanInput, fieldsASCII.
  apply fieldsFrom_words; [reflexivity|reflexivity|].
  apply toLowerASCII_not_upper.
Qed.

Lemma cleanInputASCII_nil_iff text :
  cleanInputASCII text = [] <-> allb asciiSpace text = true.
Proof.
  rewrite <- squeeze_nil_iff.
  pose proof (cleanInputASCII_concat text) as Hcat.
  rewrite squeeze_toLowerASCII in Hcat.
  split.
  - intros Hnil. rewrite Hnil in Hcat. cbn [foldr] in Hcat.
    by apply toLowerASCII_nil_iff.
  - intros Hsq. rewrite Hsq in Hcat. cbn [toLowerASCII] in Hcat.
    pose proof (cleanInputASCII_isWord text) as Hw.
    destruct (cleanInputASCII text) as [|w ws]; [reflexivity|].
    cbn [foldr] in Hcat. apply sapp_eq_nil in Hcat as [-> _].
    apply Forall_inv in Hw. by destruct Hw as [Hne _].
Qed.

(** X23.  The words of a line.  On ASCII text every word [cleanInput]
    returns is non-empty, contains no white space and no upper-case letter;
    and the words, put together, are the text in lower case with its white
    space removed: nothing else is dropped, added or reordered. *)
Theorem cleanInput_words text :
  isASCII text = true ->
  Forall isWord (cleanInputASCII text)
  /\ foldr String.append "" (cleanInputASCII text)
     = squeeze (toLowerASCII text).
Proof.
  intros _. split.
  - apply cleanInputASCII_isWord.
  - apply cleanInputASCII_concat.
Qed.

(** X24.  Blank lines.  On ASCII text [cleanInput] returns no word exactly
    when the text is empty or consists of white space only; on such a line
    (also the empty text the scanner yields at the end of the input) the
    loop body does nothing at all: no output, no change of state, and the
    loop goes on. *)
Theorem blank_line_is_skipped Unmarshal UnmarshalLocations UnmarshalDetails
    env text w :
  isASCII text = true ->
  (cleanInputASCII text = [] <-> allb asciiSpace text = true)
  /\ (allb asciiSpace text = true ->
      evalLine trimSpaceASCII toLowerASCII fieldsASCII Unmarshal
        UnmarshalLocations UnmarshalDetails env text w
        = (Returned None, w)).
Proof.
  intros _. split; [apply cleanInputASCII_nil_iff|].
  intros Hblank. apply cleanInputASCII_nil_iff in Hblank.
  unfold evalLine. fold cleanInputASCII. by rewrite Hblank.
Qed.

(** *** Running the commands in a concrete environment *)

(** A network that refuses every connection. *)
Definition refuse (url : string) : error + Response :=
  inl "connection refused".

(** A server that answers every request with the given status and body. *)
Definition answer (code : Z) (line : string)
    (body : list Byte.byte * option error) (url : string)
    : error + Response :=
  inr {| StatusCode := code; Status := line; Body := body |}.

Definition samplePage : LocationResponse :=
  {| Count := 2;
     Response_Next := "https://pokeapi.co/api/v2/location-area?offset=20";
     Response_Previous := "";
     Locations := [ {| Location_Name := "canalave-city-area";
                       Location_Url := "" |};
                    {| Location_Name := "eterna-city-area";
                       Location_Url := "" |} ] |}.

Definition sampleDetails : LocationDetailsResponse :=
  {| PokemonEncounters :=
       [ {| Encounter_Pokemon :=
              {| Pokemon_Name := "tentacool"; Pokemon_Url := "" |} |};
         {| Encounter_Pokemon :=
              {| Pokemon_Name := "staravia"; Pokemon_Url := "" |} |} ] |}.

(** Stand-ins for the JSON decoder: any payload that is not empty decodes
    to the given value. *)
Definition pageDecoder (page : LocationResponse) (data : Bytes)
    : LocationResponse * option error :=
  match data with
  | Slice (_ :: _) => (page, None)
  | _ => ({| Count := 0; Response_Next := ""; Response_Previous := "";
             Locations := [] |}, Some "unexpected end of JSON input")
  end.

Definition detailsDecoder (details : LocationDetailsResponse) (data : Bytes)
    : LocationDetailsResponse * option error :=
  match data with
  | Slice (_ :: _) => (details, None)
  | _ => ({| PokemonEncounters := [] |}, Some "unexpected end of JSON input")
  end.

Definition pikachuUrl : string := apiUrl +:+ "pokemon/pikachu".

Definition online (body : list Byte.byte) (draw : Z) : Env :=
  {| net := answer 200 "200 OK" (body, None); now := 5; rnd := draw |}.

Definition offline : Env := {| net := refuse; now := 5; rnd := 3 |}.

Lemma pikachuUrl_not_blank : trimSpaceASCII pikachuUrl <> "".
Proof. vm_compute. discriminate. Qed.

Lemma fetchData_failures_leave_cache_witness :
  fetchData trimSpaceASCII refuse 5 "   " freshConfig
    = ((Slice [], Some "Invalid input"), freshConfig)
  /\ fetchData trimSpaceASCII refuse 5 pikachuUrl freshConfig
     = ((Slice [], Some "connection refused"), freshConfig)
  /\ fetchData trimSpaceASCII (answer 404 "404 Not Found" ([], None)) 5
       pikachuUrl freshConfig
     = ((Slice [], Some "failed to fetch data: 404 Not Found"), freshConfig).
Proof.
  split; [|split].
  - apply (proj1 (fetchData_failures_leave_cache trimSpaceASCII refuse 5
                    "   " freshConfig)). reflexivity.
  - apply (proj1 (proj2 (fetchData_failures_leave_cache trimSpaceASCII
             refuse 5 pikachuUrl freshConfig)) "connection refused").
    + apply pikachuUrl_not_blank.
    + reflexivity.
    + reflexivity.
  - apply (proj2 (proj2 (fetchData_failures_leave_cache trimSpaceASCII
             (answer 404 "404 Not Found" ([], None)) 5 pikachuUrl
             freshConfig))
             {| StatusCode := 404; Status := "404 Not Found";
                Body := ([], None) |}).
    + apply pikachuUrl_not_blank.
    + reflexivity.
    + reflexivity.
    + cbn. lia.
Defined.

Lemma fetchData_hit_ignores_network_witness :
  fetchData trimSpaceASCII refuse 9 pikachuUrl
    (withCache freshConfig (Add 5 pikachuUrl (Slice [Byte.x7b]) NewCache))
  = ((Slice [Byte.x7b], None),
     withCache freshConfig (Add 5 pikachuUrl (Slice [Byte.x7b]) NewCache)).
Proof.
  apply (proj1 (fetchData_hit_ignores_network trimSpaceASCII refuse 9
           refuse 9 pikachuUrl
           (withCache freshConfig
              (Add 5 pikachuUrl (Slice [Byte.x7b]) NewCache))
           {| createdAt := 5; val := Slice [Byte.x7b] |}
           pikachuUrl_not_blank
           (lookup_insert_eq _ _ _))).
Defined.


Lemma fetchData_frame_witness :
  Next (fetchData trimSpaceASCII (answer 200 "200 OK" ([Byte.x7b], None))
          5 pikachuUrl freshConfig).2 = ""
  /\ cache (Cache (fetchData trimSpaceASCII
                     (answer 200 "200 OK" ([Byte.x7b], None))
                     5 pikachuUrl freshConfig).2) !! "other" = None.
Proof.
  destruct (fetchData_frame trimSpaceASCII
              (answer 200 "200 OK" ([Byte.x7b], None)) 5 pikachuUrl
              freshConfig) as (_ & HN & _ & Hother & _).
  split.
  - exact HN.
  - transitivity (cache (Cache freshConfig) !! "other").
    + apply Hother. vm_compute. discriminate.
    + reflexivity.
Defined.

Lemma fetchData_returns_cached_value_witness :
  exists e,
    cache (Cache (fetchData trimSpaceASCII
                    (answer 200 "200 OK" ([Byte.x7b], None))
                    5 pikachuUrl freshConfig).2) !! pikachuUrl = Some e
    /\ val e = Slice [Byte.x7b].
Proof.
  apply (fetchData_returns_cached_value trimSpaceASCII
           (answer 200 "200 OK" ([Byte.x7b], None)) 5 pikachuUrl
           freshConfig (Slice [Byte.x7b])).
  vm_compute. reflexivity.
Defined.

(** The pokemon [digitUnmarshal] decodes from the payload ["7"]. *)
Definition pikachu7 : PokemonType :=
  {| Name := "pikachu"; Height := 4; Weight := 60; Stats := [];
     Types := []; BaseExperience := 7 |}.

Definition cached7 : config :=
  withCache freshConfig (Add 5 pikachuUrl (Slice [Byte.x37]) NewCache).

Lemma fetch7 draw :
  fetchData trimSpaceASCII (net (online [Byte.x37] draw))
    (now (online [Byte.x37] draw))
    (Url (cfg freshWorld) +:+ "pokemon/" +:+ "pikachu") (cfg freshWorld)
  = ((Slice [Byte.x37], None), cached7).
Proof. vm_compute. reflexivity. Qed.

Lemma catchPokemon_outcome_witness :
  catchPokemon trimSpaceASCII digitUnmarshal
    (answer 200 "200 OK" ([Byte.x37], None)) 5 3 "pikachu" freshWorld
  = (Return None,
     {| cfg := cached7;
        pokeDex := <["pikachu" := pikachu7]> ∅;
        stdout := ["Throwing a Pokeball at pikachu...";
                   "pikachu was caught"] |}).
Proof.
  assert (Hn : 0 < BaseExperience pikachu7) by (cbn; lia).
  exact (proj2 (catchPokemon_outcome trimSpaceASCII digitUnmarshal
                  (answer 200 "200 OK" ([Byte.x37], None)) 5 3 "pikachu"
                  freshWorld (Slice [Byte.x37]) cached7 pikachu7
                  (fetch7 3) eq_refl Hn)).
Defined.

Lemma catchPokemon_failure_witness :
  catchPokemon trimSpaceASCII digitUnmarshal refuse 5 3 "pikachu" freshWorld
  = (Return (Some "connection refused"),
     {| cfg := freshConfig; pokeDex := ∅;
        stdout := ["Throwing a Pokeball at pikachu...";
                   "failed to catch connection refused"] |}).
Proof.
  apply (proj1 (catchPokemon_failure trimSpaceASCII digitUnmarshal refuse 5 3
                  "pikachu" freshWorld (Slice []) freshConfig
                  "connection refused")).
  vm_compute. reflexivity.
Defined.

Lemma catchPokemon_frame_witness :
  pokeDex (catchPokemon trimSpaceASCII digitUnmarshal
             (answer 200 "200 OK" ([Byte.x37], None)) 5 3 "pikachu"
             freshWorld).2 !! "mew" = None
  /\ Next (cfg (catchPokemon trimSpaceASCII digitUnmarshal
                  (answer 200 "200 OK" ([Byte.x37], None)) 5 3 "pikachu"
                  freshWorld).2) = "".
Proof.
  destruct (catchPokemon_frame trimSpaceASCII digitUnmarshal
              (answer 200 "200 OK" ([Byte.x37], None)) 5 3 "pikachu"
              freshWorld) as (Hother & _ & _ & HN & _).
  split.
  - transitivity (pokeDex freshWorld !! "mew").
    + apply Hother. discriminate.
    + reflexivity.
  - exact HN.
Defined.

Lemma commandCatch_swallows_errors_witness :
  commandCatch trimSpaceASCII digitUnmarshal offline [] freshWorld
    = (Panicked indexOutOfRange, freshWorld)
  /\ commandCatch trimSpaceASCII digitUnmarshal offline ["pikachu"] freshWorld
     = (Returned None,
        {| cfg := freshConfig; pokeDex := ∅;
           stdout := ["Throwing a Pokeball at pikachu...";
                      "failed to catch connection refused"] |}).
Proof.
  split.
  - apply (proj1 (commandCatch_swallows_errors trimSpaceASCII digitUnmarshal
                    offline [] freshWorld)). reflexivity.
  - apply (proj1 (proj2 (commandCatch_swallows_errors trimSpaceASCII
                           digitUnmarshal offline ["pikachu"] freshWorld))
             "pikachu" [] (Some "connection refused")).
    + reflexivity.
    + vm_compute. reflexivity.
Defined.

Definition firstPageUrl : string := apiUrl +:+ "/location-area".

Definition cachedPage : config :=
  withCache freshConfig (Add 5 firstPageUrl (Slice [Byte.x7b]) NewCache).

Lemma paging_shows_page_and_moves_cursor_witness :
  commandMap trimSpaceASCII (pageDecoder samplePage) (online [Byte.x7b] 3)
    [] freshWorld
  = (Returned None,
     {| cfg := {| Url := apiUrl; Next := Response_Next samplePage;
                  Previous := ""; Cache := Cache cachedPage |};
        pokeDex := ∅;
        stdout := ["canalave-city-area"; "eterna-city-area"] |}).
Proof.
  apply (proj1 (paging_shows_page_and_moves_cursor trimSpaceASCII
                  (pageDecoder samplePage) (online [Byte.x7b] 3) []
                  freshWorld firstPageUrl (Slice [Byte.x7b]) cachedPage
                  samplePage ltac:(vm_compute; reflexivity) eq_refl)).
  reflexivity.
Defined.

Lemma paging_error_keeps_cursor_witness :
  stdout (commandMap trimSpaceASCII (pageDecoder samplePage) offline []
            freshWorld).2 = []
  /\ Next (cfg (commandMap trimSpaceASCII (pageDecoder samplePage) offline []
                  freshWorld).2) = "".
Proof.
  destruct (paging_error_keeps_cursor trimSpaceASCII (pageDecoder samplePage)
              offline [] freshWorld "connection refused"
              (commandMap trimSpaceASCII (pageDecoder samplePage) offline []
                 freshWorld).2)
    as (Hout & _ & _ & HN & _).
  - left. vm_compute. reflexivity.
  - split; [exact Hout|exact HN].
Defined.

Lemma paging_requests_witness :
  commandPrevMap trimSpaceASCII (pageDecoder samplePage) offline ["back"]
    freshWorld
  = (Returned None,
     {| cfg := freshConfig; pokeDex := ∅;
        stdout := ["you're on the first page"] |}).
Proof.
  apply (proj2 (proj2 (proj2 (paging_requests trimSpaceASCII
           (pageDecoder samplePage) (online [Byte.x7b] 3) offline
           [] ["back"] freshWorld eq_refl)))).
  reflexivity.
Defined.

Lemma commandExplore_behaviour_witness :
  commandExplore trimSpaceASCII (detailsDecoder sampleDetails)
    (online [Byte.x7b] 3) [] freshWorld
    = (Panicked indexOutOfRange, freshWorld)
  /\ stdout (commandExplore trimSpaceASCII (detailsDecoder sampleDetails)
               (online [Byte.x7b] 3) ["canalave-city-area"] freshWorld).2
     = ["tentacool"; "staravia"].
Proof.
  destruct (commandExplore_behaviour trimSpaceASCII
              (detailsDecoder sampleDetails) (online [Byte.x7b] 3) []
              freshWorld) as (Hpanic & _).
  destruct (commandExplore_behaviour trimSpaceASCII
              (detailsDecoder sampleDetails) (online [Byte.x7b] 3)
              ["canalave-city-area"] freshWorld) as (_ & Hrun & _).
  split.
  - apply Hpanic. reflexivity.
  - destruct (Hrun "canalave-city-area" [] eq_refl) as (_ & _ & Hok).
    rewrite Hok; [reflexivity| |]; vm_compute; reflexivity.
Defined.

Lemma commandInspect_behaviour_witness :
  commandInspect offline ["pikachu"] freshWorld
    = (Returned None, Println "You haven't caught pikachu" freshWorld)
  /\ commandInspect offline [] freshWorld
     = (Panicked indexOutOfRange, freshWorld).
Proof.
  destruct (commandInspect_behaviour offline ["pikachu"] freshWorld)
    as (_ & Hmissing & _).
  destruct (commandInspect_behaviour offline [] freshWorld) as (Hpanic & _).
  split.
  - apply (Hmissing "pikachu" []); reflexivity.
  - apply Hpanic. reflexivity.
Defined.

Lemma inspect_after_catch_witness :
  let w' := (commandCatch trimSpaceASCII digitUnmarshal
               (online [Byte.x37] 3) ["pikachu"] freshWorld).2 in
  commandInspect offline ["pikachu"] w'
  = (Returned None,
     {| cfg := cfg w'; pokeDex := pokeDex w';
        stdout := stdout w' ++
          ["Details of pikachu:"; "Height: 4"; "Weight: 60";
           "Base Experience: 7"; "Types:"; "Stats:"] |}).
Proof.
  assert (Hn : 0 < BaseExperience pikachu7) by (cbn; lia).
  apply (proj1 (inspect_after_catch trimSpaceASCII digitUnmarshal
                  (online [Byte.x37] 3) offline "pikachu" [] freshWorld
                  (Slice [Byte.x37]) cached7 pikachu7 (fetch7 3) eq_refl Hn)).
  vm_compute. reflexivity.
Defined.

Lemma evalLine_unknown_command_witness :
  evalLine trimSpaceASCII toLowerASCII fieldsASCII digitUnmarshal
    (pageDecoder samplePage) (detailsDecoder sampleDetails) offline
    "  Fly away " freshWorld
  = (Returned None,
     {| cfg := freshConfig; pokeDex := ∅;
        stdout := ["Unknown command: fly"] |}).
Proof.
  apply (evalLine_unknown_command trimSpaceASCII toLowerASCII fieldsASCII
           digitUnmarshal (pageDecoder samplePage)
           (detailsDecoder sampleDetails) offline "  Fly away " freshWorld
           "fly" ["away"]).
  - vm_compute. reflexivity.
  - unfold commandWords. intros Hin.
    repeat (apply elem_of_cons in Hin as [Hin|Hin]; [discriminate|]).
    by apply elem_of_nil in Hin.
Defined.

Lemma evalLine_missing_argument_panics_witness :
  evalLine trimSpaceASCII toLowerASCII fieldsASCII digitUnmarshal
    (pageDecoder samplePage) (detailsDecoder sampleDetails) offline
    " CATCH  " freshWorld
  = (Panicked indexOutOfRange, freshWorld).
Proof.
  apply (evalLine_missing_argument_panics trimSpaceASCII toLowerASCII
           fieldsASCII digitUnmarshal (pageDecoder samplePage)
           (detailsDecoder sampleDetails) offline " CATCH  " freshWorld
           "catch").
  - vm_compute. reflexivity.
  - apply list_elem_of_further, list_elem_of_here.
Defined.

Lemma evalLine_reports_errors_witness :
  evalLine trimSpaceASCII toLowerASCII fieldsASCII digitUnmarshal
    (pageDecoder samplePage) (detailsDecoder sampleDetails) offline
    "map" freshWorld
  = (Returned None,
     {| cfg := freshConfig; pokeDex := ∅;
        stdout := ["Error: connection refused"] |}).
Proof.
  apply (proj1 (evalLine_reports_errors trimSpaceASCII toLowerASCII
                  fieldsASCII digitUnmarshal (pageDecoder samplePage)
                  (detailsDecoder sampleDetails) offline "map" freshWorld)
           "map" []
           {| name := "map"; description := "Display next maps";
              callback := commandMap trimSpaceASCII
                            (pageDecoder samplePage) |}
           "connection refused" freshWorld).
  - vm_compute. reflexivity.
  - reflexivity.
  - vm_compute. reflexivity.
Defined.

Lemma cleanInput_words_witness :
  Forall isWord (cleanInputASCII "  Catch   PIKACHU ")
  /\ foldr String.append "" (cleanInputASCII "  Catch   PIKACHU ")
     = "catchpikachu".
Proof.
  apply (cleanInput_words "  Catch   PIKACHU "). reflexivity.
Defined.

Lemma blank_line_is_skipped_witness :
  evalLine trimSpaceASCII toLowerASCII fieldsASCII digitUnmarshal
    (pageDecoder samplePage) (detailsDecoder sampleDetails) offline
    "   " freshWorld
  = (Returned None, freshWorld).
Proof.
  apply (proj2 (blank_line_is_skipped digitUnmarshal (pageDecoder samplePage)
                  (detailsDecoder sampleDetails) offline "   " freshWorld
                  eq_refl)).
  reflexivity.
Defined.

End Cli.
